(** * cleanPlain.py: removal of plain [qN.tex] files from [questions] folders

    A shallow embedding of [src/cleanPlain.py] and the properties of its
    three functions [find_candidate_deletions], [gather_target_dirs] and
    [main].

    - File names are [string]s.  A character of [string] is an 8-bit code
      point; on these code points Python's [\d] is exactly [0-9].
    - The two compiled patterns are values of a small regular-expression
      type, matched the way [re.match] does: anchored at the start, with
      [$] accepting the end of the string or the position just before a
      final newline.
    - The file system is a tree of directories whose entries are kept in
      enumeration order; [unlink] follows POSIX ([EISDIR] on a directory,
      [EACCES] when the parent directory is not writable).  Of the
      permissions only the one to remove an entry is part of a tree: every
      directory of a tree can be read and searched, so listing a directory
      and [is_dir] do not fail with "permission denied", and there are no
      symbolic links.
    - What [main] prints is a list of messages, one per [print] call;
      writing to the standard output does not fail. *)

From Stdlib Require Import List String Ascii Bool Arith Lia DecimalString.
From Stdlib Require Import Permutation Sorted OrderedTypeEx.
Import ListNotations.
Local Open Scope string_scope.
Local Open Scope list_scope.

Set Warnings "-register-all".

(* ------------------------------------------------------------------ *)
(** ** Regular expressions, as [re.match] runs them *)

Module Re.

Definition word := list ascii.

(** [\d] on 8-bit code points. *)
Definition is_digit (c : ascii) : bool :=
  ((48 <=? nat_of_ascii c) && (nat_of_ascii c <=? 57))%nat.

Definition newline : ascii := ascii_of_nat 10.

Inductive regex : Type :=
| Void                       (* matches nothing *)
| Eps                        (* the empty pattern *)
| Chr (c : ascii)            (* a literal character *)
| Digit                      (* \d *)
| Seq (r1 r2 : regex)        (* r1 r2 *)
| Alt (r1 r2 : regex)        (* r1|r2 *)
| Plus (r : regex)           (* r+ *)
| Eol.                       (* $ *)

(** [$] holds where nothing is left, or only a final newline. *)
Definition at_eol (rest : word) : bool :=
  match rest with
  | [] => true
  | c :: [] => Ascii.eqb c newline
  | _ => false
  end.

(** [matches r s rest]: [r] consumes exactly [s] when [rest] is what
    follows [s] in the subject string. *)
Inductive matches : regex -> word -> word -> Prop :=
| m_eps rest : matches Eps [] rest
| m_chr c rest : matches (Chr c) [c] rest
| m_digit c rest : is_digit c = true -> matches Digit [c] rest
| m_seq r1 r2 s1 s2 rest :
    matches r1 s1 (s2 ++ rest) -> matches r2 s2 rest ->
    matches (Seq r1 r2) (s1 ++ s2) rest
| m_alt_l r1 r2 s rest : matches r1 s rest -> matches (Alt r1 r2) s rest
| m_alt_r r1 r2 s rest : matches r2 s rest -> matches (Alt r1 r2) s rest
| m_plus_one r s rest : matches r s rest -> matches (Plus r) s rest
| m_plus_more r s1 s2 rest :
    matches r s1 (s2 ++ rest) -> matches (Plus r) s2 rest ->
    matches (Plus r) (s1 ++ s2) rest
| m_eol rest : at_eol rest = true -> matches Eol [] rest.

(** Can [r] match the empty word in front of [rest]? *)
Fixpoint nullable (r : regex) (rest : word) : bool :=
  match r with
  | Void => false
  | Eps => true
  | Chr _ => false
  | Digit => false
  | Seq r1 r2 => nullable r1 rest && nullable r2 rest
  | Alt r1 r2 => nullable r1 rest || nullable r2 rest
  | Plus r1 => nullable r1 rest
  | Eol => at_eol rest
  end.

(** Derivative of [r] by [c], when [after] follows [c] in the subject. *)
Fixpoint deriv (c : ascii) (after : word) (r : regex) : regex :=
  match r with
  | Void => Void
  | Eps => Void
  | Chr d => if Ascii.eqb c d then Eps else Void
  | Digit => if is_digit c then Eps else Void
  | Seq r1 r2 =>
      Alt (Seq (deriv c after r1) r2)
          (if nullable r1 (c :: after) then deriv c after r2 else Void)
  | Alt r1 r2 => Alt (deriv c after r1) (deriv c after r2)
  | Plus r1 => Seq (deriv c after r1) (Alt Eps (Plus r1))
  | Eol => Void
  end.

(** [pattern.match(s)] is not [None]: some prefix of [s] matches. *)
Fixpoint re_match (r : regex) (s : word) : bool :=
  nullable r s ||
  match s with
  | [] => false
  | c :: s' => re_match (deriv c s' r) s'
  end.

(** A literal string as a pattern. *)
Fixpoint lit (s : string) : regex :=
  match s with
  | EmptyString => Eps
  | String c s' => Seq (Chr c) (lit s')
  end.

End Re.

Import Re.

(* ------------------------------------------------------------------ *)
(** ** The module-level constants *)

Definition IGNORE_DIRS : list string := ["xmScripts"; ".vscode"; ".git"].

(** [re.compile(r"^q(\d+)\.tex$")]; the leading [^] is the anchoring of
    [match] itself. *)
Definition PLAIN_Q_REGEX : regex :=
  Seq (Chr "q") (Seq (Plus Digit) (Seq (Chr ".") (Seq (lit "tex") Eol))).

(** [re.compile(r"^q(\d+)_(xm|soln)\.tex$")] *)
Definition PROTECTED_REGEX : regex :=
  Seq (Chr "q")
    (Seq (Plus Digit)
       (Seq (Chr "_")
          (Seq (Alt (lit "xm") (lit "soln"))
             (Seq (Chr ".") (Seq (lit "tex") Eol))))).

Definition regex_match (r : regex) (name : string) : bool :=
  re_match r (list_ascii_of_string name).

(** The glob shape [q*.tex] of [fnmatch]: a leading [q], anything, a
    trailing [.tex]. *)
Fixpoint ends_with_tex (s : string) : bool :=
  match s with
  | EmptyString => false
  | String c s' => String.eqb s ".tex" || ends_with_tex s'
  end.

Definition glob_q_tex (name : string) : bool :=
  match name with
  | String c s => Ascii.eqb c "q" && ends_with_tex s
  | EmptyString => false
  end.

(* ------------------------------------------------------------------ *)
(** ** The file system *)

(** A directory lists its entries in the order in which the operating
    system enumerates them; [writable] is the permission to remove an
    entry from it. *)
Inductive node : Type :=
| File
| Dir (writable : bool) (entries : list (string * node)).

(** An absolute, resolved path: its components below [/]. *)
Definition path := list string.

Fixpoint assoc (x : string) (es : list (string * node)) : option node :=
  match es with
  | [] => None
  | (y, c) :: es' => if String.eqb x y then Some c else assoc x es'
  end.

Fixpoint lookup (t : node) (p : path) : option node :=
  match p with
  | [] => Some t
  | x :: p' =>
      match t with
      | File => None
      | Dir _ es =>
          match assoc x es with
          | Some c => lookup c p'
          | None => None
          end
      end
  end.

(** [Path.is_dir()], on a tree all of whose directories can be searched. *)
Definition is_dir (t : node) (p : path) : bool :=
  match lookup t p with
  | Some (Dir _ _) => true
  | _ => false
  end.

(** [Path.name]: the last component. *)
Definition name (p : path) : string := last p "".

(** [str(path)] *)
Definition path_str (p : path) : string :=
  match p with
  | [] => "/"
  | _ => String.concat "" (map (fun x => String "/" x) p)
  end.

Inductive os_error : Type := ENOENT | ENOTDIR | EISDIR | EACCES.

Fixpoint remove_entry (x : string) (es : list (string * node)) :=
  match es with
  | [] => []
  | (y, c) :: es' =>
      if String.eqb x y then es' else (y, c) :: remove_entry x es'
  end.

Fixpoint replace_entry (x : string) (c' : node) (es : list (string * node)) :=
  match es with
  | [] => []
  | (y, c) :: es' =>
      if String.eqb x y then (y, c') :: es' else (y, c) :: replace_entry x c' es'
  end.

(** [Path.unlink()]: the new tree, or the [OSError] raised. *)
Fixpoint unlink (t : node) (p : path) : node + os_error :=
  match p with
  | [] => inr EISDIR
  | x :: p' =>
      match t with
      | File => inr ENOTDIR
      | Dir w es =>
          match assoc x es with
          | None => inr ENOENT
          | Some c =>
              match p' with
              | [] =>
                  if negb w then inr EACCES
                  else match c with
                       | Dir _ _ => inr EISDIR
                       | File => inl (Dir w (remove_entry x es))
                       end
              | _ :: _ =>
                  match unlink c p' with
                  | inl c' => inl (Dir w (replace_entry x c' es))
                  | inr e => inr e
                  end
              end
          end
      end
  end.

(** The [OSError] of listing a path that is not a directory: "not a
    directory" when the path, or a path above it, is a regular file,
    "no such file" when a component is missing. *)
Fixpoint scandir_error (t : node) (p : path) : os_error :=
  match t with
  | File => ENOTDIR
  | Dir _ es =>
      match p with
      | [] => ENOENT
      | x :: p' =>
          match assoc x es with
          | Some c => scandir_error c p'
          | None => ENOENT
          end
      end
  end.

(** [Path.iterdir()], forced by the list comprehension around it. *)
Definition iterdir (t : node) (p : path) : list path + os_error :=
  match lookup t p with
  | Some (Dir _ es) => inl (map (fun e => p ++ [fst e]) es)
  | _ => inr (scandir_error t p)
  end.

(** Everything below the directory [t] found at [p]: the entries of [t],
    then what lies below each of them. *)
Fixpoint walk (t : node) (p : path) : list path :=
  match t with
  | File => []
  | Dir _ es =>
      map (fun e => p ++ [fst e]) es
      ++ flat_map (fun e => walk (snd e) (p ++ [fst e])) es
  end.

(** [Path.rglob("*")]; empty when [p] is not a directory. *)
Definition rglob_star (t : node) (p : path) : list path :=
  match lookup t p with
  | Some c => walk c p
  | None => []
  end.

(** [Path.glob(pattern)] for a pattern without separators. *)
Definition glob (pat : string -> bool) (t : node) (p : path) : list path :=
  match lookup t p with
  | Some (Dir _ es) =>
      map (fun e => p ++ [fst e]) (filter (fun e => pat (fst e)) es)
  | _ => []
  end.

(* ------------------------------------------------------------------ *)
(** ** find_candidate_deletions *)

(** The body of the [for p in ...] loop, over the entries the glob gave. *)
Fixpoint classify (ps : list path) : list path :=
  match ps with
  | [] => []
  | p :: rest =>
      if regex_match PROTECTED_REGEX (name p) then classify rest
      else if regex_match PLAIN_Q_REGEX (name p) then p :: classify rest
      else classify rest
  end.

Definition find_candidate_deletions (t : node) (questions_dir : path)
  : list path :=
  classify (glob glob_q_tex t questions_dir).

(* ------------------------------------------------------------------ *)
(** ** gather_target_dirs *)

Definition ignored (x : string) : bool := existsb (String.eqb x) IGNORE_DIRS.

Definition gather_target_dirs (t : node) (root : path) (recursive : bool)
  : list path + os_error :=
  let dirs :=
    if recursive then inl (filter (is_dir t) (rglob_star t root))
    else match iterdir t root with
         | inl ps => inl (filter (is_dir t) ps)
         | inr e => inr e
         end in
  match dirs with
  | inl ds => inl (filter (fun d => negb (ignored (name d))) ds)
  | inr e => inr e
  end.

(* ------------------------------------------------------------------ *)
(** ** main *)

Record args : Type := Args {
  root : path;          (* [Path(args.root).resolve()] *)
  dry_run : bool;
  recursive : bool;
  quiet : bool
}.

(** One constructor per [print] call of [main]. *)
Inductive message : Type :=
| InfoRoot (r : path)
| InfoRecursive
| InfoDryRun
| SkipEmpty (qdir : path)
| DryWould (f : path)
| Deleted (f : path)
| CouldNot (f : path) (e : os_error)
| SummaryDry (n : nat)
| SummaryLive (n : nat).

Inductive tag : Type := INFO | SKIP | DRY | DEL | ERR | SUMMARY.

Definition tag_of (m : message) : tag :=
  match m with
  | InfoRoot _ | InfoRecursive | InfoDryRun => INFO
  | SkipEmpty _ => SKIP
  | DryWould _ => DRY
  | Deleted _ => DEL
  | CouldNot _ _ => ERR
  | SummaryDry _ | SummaryLive _ => SUMMARY
  end.

Definition tag_eqb (a b : tag) : bool :=
  match a, b with
  | INFO, INFO | SKIP, SKIP | DRY, DRY | DEL, DEL | ERR, ERR
  | SUMMARY, SUMMARY => true
  | _, _ => false
  end.

Definition tag_str (g : tag) : string :=
  match g with
  | INFO => "[INFO]" | SKIP => "[SKIP]" | DRY => "[DRY]"
  | DEL => "[DEL]" | ERR => "[ERR]" | SUMMARY => "[SUMMARY]"
  end.

Definition nat_str (n : nat) : string := NilEmpty.string_of_uint (Nat.to_uint n).

(** [str(e)] of the [OSError] raised for file [f]; the file name is
    shown between plain quotes. *)
Definition os_error_str (e : os_error) (f : path) : string :=
  (match e with
   | ENOENT => "[Errno 2] No such file or directory"
   | ENOTDIR => "[Errno 20] Not a directory"
   | EISDIR => "[Errno 21] Is a directory"
   | EACCES => "[Errno 13] Permission denied"
   end ++ ": '" ++ path_str f ++ "'")%string.

(** The text of each message. *)
Definition render (m : message) : string :=
  (match m with
   | InfoRoot r => "[INFO] Root: " ++ path_str r
   | InfoRecursive => "[INFO] Mode: recursive"
   | InfoDryRun => "[INFO] Dry-run: no files will be deleted"
   | SkipEmpty qdir =>
       "[SKIP] " ++ path_str qdir ++ ": no plain qN.tex files found"
   | DryWould f => "[DRY] Would delete: " ++ path_str f
   | Deleted f => "[DEL] Deleted: " ++ path_str f
   | CouldNot f e =>
       "[ERR] Could not delete " ++ path_str f ++ ": " ++ os_error_str e f
   | SummaryDry n =>
       "[SUMMARY] " ++ nat_str n ++ " plain qN.tex file(s) would be deleted."
   | SummaryLive n =>
       "[SUMMARY] Deleted " ++ nat_str n ++ " plain qN.tex file(s)."
   end)%string.

Record state : Type := State {
  fs : node;
  out : list message;
  total_deleted : nat;
  total_candidates : nat
}.

Definition print (m : message) (st : state) : state :=
  State (fs st) (out st ++ [m]) (total_deleted st) (total_candidates st).

(** [for f in candidates: ...] *)
Fixpoint delete_loop (a : args) (candidates : list path) (st : state) : state :=
  match candidates with
  | [] => st
  | f :: rest =>
      if dry_run a then delete_loop a rest (print (DryWould f) st)
      else
        match unlink (fs st) f with
        | inl t' =>
            delete_loop a rest
              (State t' (out st ++ [Deleted f])
                 (total_deleted st + 1) (total_candidates st))
        | inr e => delete_loop a rest (print (CouldNot f e) st)
        end
  end.

(** [for d in sorted(dirs): ...] *)
Fixpoint dir_loop (a : args) (ds : list path) (st : state) : state :=
  match ds with
  | [] => st
  | d :: rest =>
      let qdir := d ++ ["questions"] in
      if negb (is_dir (fs st) qdir) then dir_loop a rest st
      else
        let candidates := find_candidate_deletions (fs st) qdir in
        let st1 :=
          State (fs st) (out st) (total_deleted st)
            (total_candidates st + List.length candidates) in
        if match candidates with [] => true | _ => false end
           && negb (quiet a)
        then dir_loop a rest (print (SkipEmpty qdir) st1)
        else dir_loop a rest (delete_loop a candidates st1)
  end.

(** The order of [PurePath.__lt__]: component by component. *)
Fixpoint path_ltb (p q : path) : bool :=
  match p, q with
  | _, [] => false
  | [], _ :: _ => true
  | x :: p', y :: q' =>
      match String.compare x y with
      | Lt => true
      | Eq => path_ltb p' q'
      | Gt => false
      end
  end.

Fixpoint insert (p : path) (l : list path) : list path :=
  match l with
  | [] => [p]
  | q :: l' => if path_ltb q p then q :: insert p l' else p :: q :: l'
  end.

(** [sorted(dirs)] *)
Definition sorted (l : list path) : list path := fold_right insert [] l.

Definition banner (a : args) : list message :=
  if quiet a then []
  else [InfoRoot (root a)]
       ++ (if recursive a then [InfoRecursive] else [])
       ++ (if dry_run a then [InfoDryRun] else []).

Definition summary (a : args) (st : state) : message :=
  if dry_run a then SummaryDry (total_candidates st)
  else SummaryLive (total_deleted st).

(** How a run ends: normally, or with the exception that escaped. *)
Inductive outcome : Type :=
| Completed (st : state)
| Aborted (st : state) (e : os_error).

Definition main (a : args) (t : node) : outcome :=
  let st0 := State t (banner a) 0 0 in
  match gather_target_dirs t (root a) (recursive a) with
  | inr e => Aborted st0 e
  | inl dirs =>
      let st := dir_loop a (sorted dirs) st0 in
      Completed (print (summary a st) st)
  end.

Definition final (o : outcome) : state :=
  match o with Completed st => st | Aborted st _ => st end.

(* ------------------------------------------------------------------ *)
(** ** Vocabulary of the properties *)

(** A run of digits. *)
Definition digits (ds : word) : bool := forallb is_digit ds.

Definition dot_tex : word := list_ascii_of_string ".tex".

(** The plain names as the documentation describes them: [q], one or more
    decimal digits, [.tex], and nothing else. *)
Definition qn_tex (x : string) : Prop :=
  exists ds : string,
    ds <> "" /\ digits (list_ascii_of_string ds) = true /\
    x = ("q" ++ ds ++ ".tex")%string.

(** No directory holds two entries of the same name. *)
Fixpoint distinct (xs : list string) : bool :=
  match xs with
  | [] => true
  | x :: xs' => negb (existsb (String.eqb x) xs') && distinct xs'
  end.

(** A well-formed tree: the names in every directory are distinct. *)
Fixpoint wf (t : node) : bool :=
  match t with
  | File => true
  | Dir _ es => distinct (map fst es) && forallb (fun e => wf (snd e)) es
  end.

(** What [stat] tells about a path: nothing there, a file, or a directory
    with its permission. *)
Inductive kind : Type := KFile | KDir (w : bool).

Definition kind_of (n : node) : kind :=
  match n with File => KFile | Dir w _ => KDir w end.

Definition stat (t : node) (p : path) : option kind :=
  option_map kind_of (lookup t p).

Ltac break_match_in H :=
  match type of H with
  | context [match ?X with _ => _ end] => destruct X eqn:?
  end.


(** How many messages of a log carry the tag [g]. *)
Definition count_tag (g : tag) (ms : list message) : nat :=
  List.length (filter (fun m => tag_eqb (tag_of m) g) ms).

(** The messages printed after an [unlink]. *)
Definition reports_unlink (m : message) : bool :=
  match m with
  | Deleted _ | CouldNot _ _ => true
  | _ => false
  end.

(** [trace t ms t']: read from left to right, every [Deleted f] in [ms]
    is an [unlink] of [f] that succeeded, every [CouldNot f e] one that
    raised [e], and these are all the changes that lead from [t] to [t']. *)
Inductive trace : node -> list message -> node -> Prop :=
| tr_nil t : trace t [] t
| tr_del t f t' ms t'' :
    unlink t f = inl t' -> trace t' ms t'' -> trace t (Deleted f :: ms) t''
| tr_err t f e ms t' :
    unlink t f = inr e -> trace t ms t' -> trace t (CouldNot f e :: ms) t'
| tr_other t m ms t' :
    reports_unlink m = false -> trace t ms t' -> trace t (m :: ms) t'.

(** Which messages the options let the loops print. *)
Definition allowed (a : args) (m : message) : bool :=
  match tag_of m with
  | INFO | SUMMARY => false
  | SKIP => negb (quiet a)
  | DRY => dry_run a
  | DEL | ERR => negb (dry_run a)
  end.

(** The messages that stand for one candidate each. *)
Definition is_action (m : message) : bool :=
  match tag_of m with
  | DRY | DEL | ERR => true
  | _ => false
  end.

Definition count_actions (ms : list message) : nat :=
  List.length (filter is_action ms).

(** The message a candidate [f] gets. *)
Definition answers (a : args) (f : path) (m : message) : Prop :=
  if dry_run a then m = DryWould f
  else m = Deleted f \/ exists e, m = CouldNot f e.

(** Where the files a run deletes lie: in the [questions] folder of a
    listed directory, under a name [q<digits>.tex]. *)
Definition in_scope (ds : list path) (f : path) : Prop :=
  exists d x, In d ds /\ f = d ++ ["questions"; x] /\ qn_tex x.

(** [R/A/questions] with plain and protected files, a nested [R/A/B], an
    ignored [R/xmScripts] with a folder below it, and [R/questions]. *)
Definition tree_course : node :=
  Dir true [("R", Dir true
    [("A", Dir true
       [("questions", Dir true
           [("q1.tex", File); ("q1_soln.tex", File);
            ("q1_xm.tex", File); ("q2.tex", File)]);
        ("B", Dir true [("questions", Dir true [("q2.tex", File)])])]);
     ("xmScripts", Dir true
       [("sub", Dir true [("questions", Dir true [("q9.tex", File)])])]);
     ("questions", Dir true [("q5.tex", File)])])].

(** A file whose name ends in a newline. *)
Definition q1_tex_newline : string := ("q1.tex" ++ String newline "")%string.

Definition tree_newline : node :=
  Dir true [("R", Dir true
    [("A", Dir true [("questions", Dir true [(q1_tex_newline, File)])])])].

(** A directory named like a plain file, next to a file in a folder that
    is not writable. *)
Definition tree_stubborn : node :=
  Dir true [("R", Dir true
    [("A", Dir true [("questions", Dir true [("q1.tex", Dir true [])])]);
     ("B", Dir true [("questions", Dir false [("q7.tex", File)])])])].

(** The plain check before the protected one. *)
Fixpoint classify_plain_first (ps : list path) : list path :=
  match ps with
  | [] => []
  | p :: rest =>
      if regex_match PLAIN_Q_REGEX (name p) then p :: classify_plain_first rest
      else if regex_match PROTECTED_REGEX (name p) then classify_plain_first rest
      else classify_plain_first rest
  end.

Definition find_candidate_deletions_plain_first (t : node) (questions_dir : path)
  : list path :=
  classify_plain_first (glob glob_q_tex t questions_dir).

(** All candidates of the directories [ds], in order. *)
Definition all_candidates (t : node) (ds : list path) : list path :=
  flat_map (fun d => find_candidate_deletions t (d ++ ["questions"])) ds.

(** What a candidate gets in live mode: [DEL], or [ERR] with the error. *)
Definition answered_live (f : path) (m : message) : Prop :=
  m = Deleted f \/ exists e, m = CouldNot f e.

(** How [unlink] ends on [f]: [None] when it removes the file, the error
    when it raises. *)
Definition verdict (t : node) (f : path) : option os_error :=
  match unlink t f with
  | inl _ => None
  | inr e => Some e
  end.

(** The message of a live run for the candidate [f], from what [unlink]
    does with [f] in the tree [t]. *)
Definition live_answer (t : node) (f : path) : message :=
  match verdict t f with
  | None => Deleted f
  | Some e => CouldNot f e
  end.

(** Two failures, each followed by a file that can be removed: the
    directory [R/A/questions/q1.tex] before the file [q2.tex], and the
    folder [R/B/questions], which is not writable, before [R/C]. *)
Definition tree_blocked : node :=
  Dir true [("R", Dir true
    [("A", Dir true
       [("questions", Dir true [("q1.tex", Dir true []); ("q2.tex", File)])]);
     ("B", Dir true [("questions", Dir false [("q7.tex", File)])]);
     ("C", Dir true [("questions", Dir true [("q3.tex", File)])])])].

(** A message of a run that deletes nothing: a skip, or a failure for
    one of the candidates. *)
Definition idle_message (t : node) (ds : list path) (m : message) : Prop :=
  match m with
  | SkipEmpty _ => True
  | CouldNot f _ =>
      exists d, In d ds /\ In f (find_candidate_deletions t (d ++ ["questions"]))
  | _ => False
  end.

(** The protected names as the documentation describes them: [q], one or
    more decimal digits, [_xm] or [_soln], [.tex], and nothing else. *)
Definition protected_name (x : string) : Prop :=
  exists ds v : string,
    ds <> "" /\ digits (list_ascii_of_string ds) = true /\
    (v = "xm" \/ v = "soln") /\
    x = ("q" ++ ds ++ "_" ++ v ++ ".tex")%string.

(** A name followed by one newline. *)
Definition with_newline (y : string) : string := (y ++ String newline "")%string.

(** The entries [find_candidate_deletions] keeps: enumerated by the glob
    and accepted by the plain pattern. *)
Definition is_plain_entry (e : string * node) : bool :=
  glob_q_tex (fst e) && regex_match PLAIN_Q_REGEX (fst e).

(** The names a directory lists, in enumeration order. *)
Definition names (t : node) (p : path) : option (list string) :=
  match lookup t p with
  | Some (Dir _ es) => Some (map fst es)
  | _ => None
  end.

(** What a dry run prints for one directory [d]. *)
Definition dry_report (q : bool) (t : node) (d : path) : list message :=
  let qdir := d ++ ["questions"] in
  if is_dir t qdir then
    match find_candidate_deletions t qdir with
    | [] => if q then [] else [SkipEmpty qdir]
    | cs => map DryWould cs
    end
  else [].

(** The messages that [--quiet] does not silence. *)
Definition loud (m : message) : bool :=
  match tag_of m with
  | INFO | SKIP => false
  | _ => true
  end.

(** A line of a dry run and the line a live run prints for the same file. *)
Definition previews (md ml : message) : Prop :=
  exists f, md = DryWould f /\ answered_live f ml.

(** [p] does not come after [q] in the order of paths. *)
Definition path_leb (p q : path) : bool := negb (path_ltb q p).

(** Induction on trees, through the entries of each directory. *)
Section NodeInd.

Variable P : node -> Prop.
Hypothesis P_file : P File.
Hypothesis P_dir :
  forall w es, Forall (fun e => P (snd e)) es -> P (Dir w es).

Fixpoint node_induction (t : node) : P t :=
  match t with
  | File => P_file
  | Dir w es =>
      P_dir w es
        ((fix all (l : list (string * node)) : Forall (fun e => P (snd e)) l :=
            match l with
            | [] => Forall_nil _
            | e :: l' => Forall_cons e (node_induction (snd e)) (all l')
            end) es)
  end.

End NodeInd.

(* ------------------------------------------------------------------ *)
(** * Properties *)

(** ** The matcher agrees with the matching relation *)

Module ReFacts.

Set Implicit Arguments.

Lemma nullable_complete r rest : nullable r rest = true -> matches r [] rest.
Proof.
  induction r; simpl; intros H; try discriminate.
  - constructor.
  - apply andb_true_iff in H as [H1 H2].
    change (@nil ascii) with (@nil ascii ++ []). constructor; auto.
  - apply orb_true_iff in H as [H | H]; [apply m_alt_l | apply m_alt_r]; auto.
  - apply m_plus_one; auto.
  - constructor; auto.
Qed.

Lemma nullable_sound r s rest :
  matches r s rest -> s = [] -> nullable r rest = true.
Proof.
  induction 1; intros E; simpl; try discriminate; auto.
  - apply app_eq_nil in E as [-> ->]. simpl in *. rewrite IHmatches1, IHmatches2; auto.
  - rewrite IHmatches; auto.
  - rewrite IHmatches; auto. apply orb_true_r.
  - apply app_eq_nil in E as [-> ->]. simpl in *. auto.
Qed.

Lemma nullable_spec r rest : nullable r rest = true <-> matches r [] rest.
Proof.
  split; [apply nullable_complete | intros H; eapply nullable_sound; eauto].
Qed.

Lemma void_inv s rest : ~ matches Void s rest.
Proof. intros H; inversion H. Qed.

Lemma eps_inv s rest : matches Eps s rest -> s = [].
Proof. intros H; inversion H; auto. Qed.

Lemma chr_inv c s rest : matches (Chr c) s rest -> s = [c].
Proof. intros H; inversion H; auto. Qed.

Lemma digit_inv s rest :
  matches Digit s rest -> exists c, s = [c] /\ is_digit c = true.
Proof. intros H; inversion H; eauto. Qed.

Lemma eol_inv s rest : matches Eol s rest -> s = [] /\ at_eol rest = true.
Proof. intros H; inversion H; auto. Qed.

Lemma seq_inv r1 r2 s rest :
  matches (Seq r1 r2) s rest ->
  exists s1 s2, s = s1 ++ s2 /\ matches r1 s1 (s2 ++ rest) /\ matches r2 s2 rest.
Proof. intros H; inversion H; subst; eauto. Qed.

Lemma alt_inv r1 r2 s rest :
  matches (Alt r1 r2) s rest -> matches r1 s rest \/ matches r2 s rest.
Proof. intros H; inversion H; subst; auto. Qed.

Lemma plus_inv r s rest :
  matches (Plus r) s rest ->
  matches r s rest \/
  exists s1 s2, s = s1 ++ s2 /\ matches r s1 (s2 ++ rest) /\ matches (Plus r) s2 rest.
Proof. intros H; inversion H; subst; [left | right]; eauto. Qed.

Lemma deriv_sound c r : forall s rest,
  matches (deriv c (s ++ rest) r) s rest -> matches r (c :: s) rest.
Proof.
  induction r; simpl; intros s rest H.
  - destruct (void_inv H).
  - destruct (void_inv H).
  - destruct (Ascii.eqb_spec c c0); [| destruct (void_inv H)].
    apply eps_inv in H. subst. constructor.
  - destruct (is_digit c) eqn:D; [| destruct (void_inv H)].
    apply eps_inv in H. subst. constructor; auto.
  - apply alt_inv in H as [H | H].
    + apply seq_inv in H as (s1 & s2 & -> & H1 & H2).
      rewrite <- app_assoc in H1. apply IHr1 in H1.
      change (c :: s1 ++ s2) with ((c :: s1) ++ s2). constructor; auto.
    + destruct (nullable r1 (c :: s ++ rest)) eqn:N; [| destruct (void_inv H)].
      apply IHr2 in H. apply nullable_complete in N.
      change (c :: s) with ([] ++ c :: s). constructor; auto.
  - apply alt_inv in H as [H | H]; [apply m_alt_l | apply m_alt_r]; auto.
  - apply seq_inv in H as (s1 & s2 & -> & H1 & H2).
    rewrite <- app_assoc in H1. apply IHr in H1.
    change (c :: s1 ++ s2) with ((c :: s1) ++ s2).
    apply alt_inv in H2 as [H2 | H2].
    + apply eps_inv in H2. subst s2. rewrite app_nil_r. apply m_plus_one; auto.
    + apply m_plus_more; auto.
  - destruct (void_inv H).
Qed.

Lemma deriv_complete r s0 rest :
  matches r s0 rest ->
  forall c s, s0 = c :: s -> matches (deriv c (s ++ rest) r) s rest.
Proof.
  induction 1; intros a t E; simpl; try discriminate.
  - injection E as -> <-. rewrite Ascii.eqb_refl. constructor.
  - injection E as -> <-. rewrite H. constructor.
  - destruct s1 as [| b s1]; simpl in E.
    + subst s2. apply m_alt_r.
      apply nullable_spec in H. simpl in H. rewrite H. auto.
    + injection E as -> <-. apply m_alt_l.
      rewrite <- app_assoc. constructor; auto.
  - apply m_alt_l; auto.
  - apply m_alt_r; auto.
  - rewrite <- (app_nil_r t) at 2. constructor.
    + simpl. auto.
    + apply m_alt_l. constructor.
  - destruct s1 as [| b s1]; simpl in E.
    + subst s2. apply (IHmatches2 a t eq_refl).
    + injection E as -> <-. rewrite <- app_assoc. constructor; auto.
      apply m_alt_r; auto.
Qed.

(** [re_match] finds a match exactly when some prefix matches. *)
Theorem re_match_spec s : forall r,
  re_match r s = true <->
  exists s1 rest, s = s1 ++ rest /\ matches r s1 rest.
Proof.
  induction s as [| c s IH]; intros r; simpl.
  - rewrite orb_false_r, nullable_spec. split.
    + intros H. exists [], []. auto.
    + intros (s1 & rest & E & H). symmetry in E.
      apply app_eq_nil in E as [-> ->]. auto.
  - rewrite orb_true_iff, nullable_spec, IH. split.
    + intros [H | (s1 & rest & -> & H)].
      * exists [], (c :: s). auto.
      * exists (c :: s1), rest. split; auto. apply deriv_sound; auto.
    + intros (s1 & rest & E & H). destruct s1 as [| b s1]; simpl in E.
      * subst rest. auto.
      * injection E as -> ->. right. exists s1, rest. split; auto.
        eapply deriv_complete; eauto.
Qed.

Unset Implicit Arguments.

End ReFacts.

(** ** The shape of the names the two patterns accept *)

Section Shapes.

Import ReFacts.

Lemma list_ascii_app (a b : string) :
  list_ascii_of_string (a ++ b) = list_ascii_of_string a ++ list_ascii_of_string b.
Proof. induction a; simpl; congruence. Qed.

Lemma lit_inv t : forall s rest,
  matches (lit t) s rest -> s = list_ascii_of_string t.
Proof.
  induction t as [| c t IH]; simpl; intros s rest H.
  - apply eps_inv in H. auto.
  - apply seq_inv in H as (s1 & s2 & -> & H1 & H2).
    apply chr_inv in H1. apply IH in H2. subst. reflexivity.
Qed.

Lemma lit_intro t rest : matches (lit t) (list_ascii_of_string t) rest.
Proof.
  revert rest. induction t as [| c t IH]; simpl; intros rest.
  - constructor.
  - change (c :: list_ascii_of_string t) with ([c] ++ list_ascii_of_string t).
    constructor; [constructor | apply IH].
Qed.

Lemma plus_digit_inv s rest :
  matches (Plus Digit) s rest -> s <> [] /\ digits s = true.
Proof.
  remember (Plus Digit) as r eqn:E. induction 1; try discriminate.
  - injection E as ->. apply digit_inv in H as (c & -> & D).
    split; [discriminate | simpl; rewrite D; auto].
  - injection E as ->. apply digit_inv in H as (c & -> & D).
    destruct (IHmatches2 eq_refl) as [_ Ds].
    split; [discriminate | simpl; rewrite D; auto].
Qed.

Lemma plus_digit_intro s : forall rest,
  s <> [] -> digits s = true -> matches (Plus Digit) s rest.
Proof.
  induction s as [| c s IH]; intros rest N D; [congruence |].
  simpl in D. apply andb_true_iff in D as [Dc Ds].
  destruct s as [| c' s'].
  - apply m_plus_one. constructor; auto.
  - change (c :: c' :: s') with ([c] ++ c' :: s'). apply m_plus_more.
    + constructor; auto.
    + apply IH; [discriminate | auto].
Qed.

(** What [PLAIN_Q_REGEX.match] accepts: [q], digits, [.tex], and then the
    end of the name or one final newline. *)
Lemma plain_shape x :
  regex_match PLAIN_Q_REGEX x = true <->
  exists ds tail,
    ds <> [] /\ digits ds = true /\ at_eol tail = true /\
    list_ascii_of_string x = "q"%char :: ds ++ dot_tex ++ tail.
Proof.
  unfold regex_match. rewrite re_match_spec. split.
  - intros (s1 & rest & E & H). unfold PLAIN_Q_REGEX in H.
    apply seq_inv in H as (a & s2 & -> & Ha & H). apply chr_inv in Ha as ->.
    apply seq_inv in H as (ds & s3 & -> & Hd & H).
    apply plus_digit_inv in Hd as [N D].
    apply seq_inv in H as (b & s4 & -> & Hb & H). apply chr_inv in Hb as ->.
    apply seq_inv in H as (t & s5 & -> & Ht & H). apply lit_inv in Ht as ->.
    apply eol_inv in H as [-> He].
    exists ds, rest. repeat split; auto.
    rewrite E. simpl. rewrite <- !app_assoc. reflexivity.
  - intros (ds & tail & N & D & He & E).
    exists ("q"%char :: ds ++ dot_tex), tail. split.
    + rewrite E. simpl. rewrite <- app_assoc. reflexivity.
    + unfold PLAIN_Q_REGEX.
      change ("q"%char :: ds ++ dot_tex) with (["q"%char] ++ ds ++ dot_tex).
      constructor; [constructor |]. constructor.
      * apply plus_digit_intro; auto.
      * change dot_tex with (["."%char] ++ list_ascii_of_string "tex" ++ []).
        constructor; [constructor |]. constructor; [apply lit_intro |].
        constructor; auto.
Qed.

(** What [PROTECTED_REGEX.match] accepts. *)
Lemma protected_shape x :
  regex_match PROTECTED_REGEX x = true <->
  exists ds v tail,
    ds <> [] /\ digits ds = true /\ (v = "xm" \/ v = "soln") /\
    at_eol tail = true /\
    list_ascii_of_string x =
      "q"%char :: ds ++ "_"%char :: list_ascii_of_string v ++ dot_tex ++ tail.
Proof.
  unfold regex_match. rewrite re_match_spec. split.
  - intros (s1 & rest & E & H). unfold PROTECTED_REGEX in H.
    apply seq_inv in H as (a & s2 & -> & Ha & H). apply chr_inv in Ha as ->.
    apply seq_inv in H as (ds & s3 & -> & Hd & H).
    apply plus_digit_inv in Hd as [N D].
    apply seq_inv in H as (u & s4 & -> & Hu & H). apply chr_inv in Hu as ->.
    apply seq_inv in H as (v & s5 & -> & Hv & H).
    apply seq_inv in H as (b & s6 & -> & Hb & H). apply chr_inv in Hb as ->.
    apply seq_inv in H as (t & s7 & -> & Ht & H). apply lit_inv in Ht as ->.
    apply eol_inv in H as [-> He].
    apply alt_inv in Hv as [Hv | Hv]; apply lit_inv in Hv as ->.
    + exists ds, "xm", rest. repeat split; auto.
      rewrite E. simpl. rewrite <- !app_assoc. reflexivity.
    + exists ds, "soln", rest. repeat split; auto.
      rewrite E. simpl. rewrite <- !app_assoc. reflexivity.
  - intros (ds & v & tail & N & D & Hv & He & E).
    exists ("q"%char :: ds ++ "_"%char :: list_ascii_of_string v ++ dot_tex), tail.
    split.
    + rewrite E. simpl. rewrite <- app_assoc. simpl. rewrite <- app_assoc.
      reflexivity.
    + unfold PROTECTED_REGEX.
      change ("q"%char :: ds ++ "_"%char :: list_ascii_of_string v ++ dot_tex)
        with (["q"%char] ++ ds ++ ["_"%char] ++ list_ascii_of_string v
              ++ ["."%char] ++ list_ascii_of_string "tex" ++ []).
      constructor; [constructor |]. constructor; [apply plus_digit_intro; auto |].
      constructor; [constructor |]. constructor.
      * destruct Hv as [-> | ->]; [apply m_alt_l | apply m_alt_r]; apply lit_intro.
      * constructor; [constructor |]. constructor; [apply lit_intro |].
        constructor; auto.
Qed.

(** Digits followed by a non-digit split in one way only. *)
Lemma digits_split ds : forall ds' c c' r r',
  digits ds = true -> digits ds' = true ->
  is_digit c = false -> is_digit c' = false ->
  ds ++ c :: r = ds' ++ c' :: r' -> ds = ds' /\ c = c' /\ r = r'.
Proof.
  induction ds as [| d ds IH]; intros [| d' ds'] c c' r r' D D' C C' E;
    simpl in *.
  - injection E as -> ->. auto.
  - injection E as -> _. apply andb_true_iff in D' as [D' _]. congruence.
  - injection E as <- _. apply andb_true_iff in D as [D _]. congruence.
  - injection E as -> E. apply andb_true_iff in D as [_ D].
    apply andb_true_iff in D' as [_ D'].
    destruct (IH ds' c c' r r' D D' C C' E) as (-> & -> & ->). auto.
Qed.

(** No name is accepted by both patterns. *)
Lemma plain_not_protected x :
  regex_match PLAIN_Q_REGEX x = true -> regex_match PROTECTED_REGEX x = false.
Proof.
  intros Hp. destruct (regex_match PROTECTED_REGEX x) eqn:Hq; auto.
  apply plain_shape in Hp as (ds & tail & _ & D & _ & E).
  apply protected_shape in Hq as (ds' & v & tail' & _ & D' & _ & _ & E').
  rewrite E in E'. injection E' as E'.
  apply digits_split in E' as (_ & C & _); auto. discriminate.
Qed.

End Shapes.

(** ** Names of the form [q<digits>.tex] *)

Lemma ends_with_tex_spec s :
  ends_with_tex s = true <-> exists mid, s = (mid ++ ".tex")%string.
Proof.
  induction s as [| c s IH].
  - simpl. split; [discriminate |]. intros ([| ? ?] & E); discriminate.
  - cbn [ends_with_tex]. rewrite orb_true_iff, IH, String.eqb_eq. split.
    + intros [E | (mid & E)].
      * exists "". auto.
      * exists (String c mid). simpl. congruence.
    + intros ([| a mid] & E); simpl in E.
      * auto.
      * injection E as _ E. right. eauto.
Qed.

Lemma glob_q_tex_spec x :
  glob_q_tex x = true <-> exists mid, x = ("q" ++ mid ++ ".tex")%string.
Proof.
  destruct x as [| c s]; simpl.
  - split; [discriminate | intros (? & ?); discriminate].
  - rewrite andb_true_iff, ends_with_tex_spec. split.
    + intros [C (mid & ->)]. apply Ascii.eqb_eq in C. subst. eauto.
    + intros (mid & E). injection E as -> ->. split; eauto.
Qed.

Lemma at_eol_cases tail : at_eol tail = true -> tail = [] \/ tail = [newline].
Proof.
  destruct tail as [| c [| ? ?]]; simpl; intros H; auto; try discriminate.
  apply Ascii.eqb_eq in H. subst. auto.
Qed.

Lemma qn_tex_iff x :
  qn_tex x <->
  glob_q_tex x = true /\ regex_match PLAIN_Q_REGEX x = true.
Proof.
  split.
  - intros (ds & N & D & ->). split.
    + apply glob_q_tex_spec. eauto.
    + apply plain_shape. exists (list_ascii_of_string ds), [].
      repeat split; auto.
      * destruct ds; [congruence | discriminate].
      * simpl. rewrite list_ascii_app. reflexivity.
  - intros [G P]. apply glob_q_tex_spec in G as (mid & G).
    apply plain_shape in P as (ds & tail & N & D & He & E).
    apply at_eol_cases in He as [-> | ->].
    + exists (string_of_list_ascii ds).
      rewrite list_ascii_of_string_of_list_ascii. repeat split; auto.
      * destruct ds; [congruence | discriminate].
      * rewrite <- (string_of_list_ascii_of_string x), E.
        rewrite <- (string_of_list_ascii_of_string
                      ("q" ++ string_of_list_ascii ds ++ ".tex")).
        f_equal. simpl. rewrite list_ascii_app.
        rewrite list_ascii_of_string_of_list_ascii. reflexivity.
    + exfalso. rewrite G in E. cbn [list_ascii_of_string append] in E.
      rewrite list_ascii_app in E. injection E as E.
      apply (f_equal (@rev ascii)) in E. rewrite !rev_app_distr in E.
      unfold dot_tex, newline in E. simpl in E. discriminate.
Qed.

(** ** Reading a directory *)

Lemma name_snoc (p : path) (x : string) : name (p ++ [x]) = x.
Proof. unfold name. apply last_last. Qed.

Lemma in_glob pat t qdir w es p :
  lookup t qdir = Some (Dir w es) ->
  In p (glob pat t qdir) <->
  exists x c, In (x, c) es /\ pat x = true /\ p = qdir ++ [x].
Proof.
  intros L. unfold glob. rewrite L, in_map_iff. split.
  - intros ([x c] & <- & H). apply filter_In in H as [H1 H2]. eauto.
  - intros (x & c & H1 & H2 & ->). exists (x, c). split; auto.
    apply filter_In; auto.
Qed.

Lemma in_classify p ps :
  In p (classify ps) <->
  In p ps /\ regex_match PROTECTED_REGEX (name p) = false
          /\ regex_match PLAIN_Q_REGEX (name p) = true.
Proof.
  induction ps as [| q ps IH]; simpl; [tauto |].
  destruct (regex_match PROTECTED_REGEX (name q)) eqn:Hq.
  - rewrite IH. split; [tauto |]. intros ([-> | H] & F & T); [congruence | auto].
  - destruct (regex_match PLAIN_Q_REGEX (name q)) eqn:Hp; simpl; rewrite IH.
    + split; [| tauto]. intros [-> | H]; tauto.
    + split; [tauto |]. intros ([-> | H] & F & T); [congruence | auto].
Qed.

(** The candidates of a directory are its entries named [q<digits>.tex]. *)
Lemma in_candidates t qdir w es p :
  lookup t qdir = Some (Dir w es) ->
  In p (find_candidate_deletions t qdir) <->
  exists x c, In (x, c) es /\ qn_tex x /\ p = qdir ++ [x].
Proof.
  intros L. unfold find_candidate_deletions.
  rewrite in_classify, (@in_glob glob_q_tex t qdir w es p L). split.
  - intros ((x & c & I & G & ->) & _ & P). rewrite name_snoc in P.
    exists x, c. repeat split; auto. apply qn_tex_iff; auto.
  - intros (x & c & I & Q & ->). apply qn_tex_iff in Q as [G P].
    rewrite name_snoc. repeat split; eauto using plain_not_protected.
Qed.

(** ** Looking paths up *)

Lemma assoc_In x es c : assoc x es = Some c -> In (x, c) es.
Proof.
  induction es as [| [y d] es IH]; simpl; [discriminate |].
  destruct (String.eqb_spec x y); intros H.
  - injection H as ->. subst. auto.
  - auto.
Qed.

Lemma In_assoc x es c : In (x, c) es -> assoc x es <> None.
Proof.
  induction es as [| [y d] es IH]; simpl; [tauto |].
  intros [E | H]; destruct (String.eqb_spec x y); try discriminate; auto.
  injection E as -> ->. congruence.
Qed.

Lemma lookup_app t p q :
  lookup t (p ++ q) =
  match lookup t p with Some c => lookup c q | None => None end.
Proof.
  revert t. induction p as [| x p IH]; intros t; simpl; auto.
  destruct t as [| w es]; auto. destruct (assoc x es); auto.
Qed.

Lemma lookup_snoc t p x :
  lookup t (p ++ [x]) =
  match lookup t p with
  | Some (Dir _ es) => assoc x es
  | _ => None
  end.
Proof.
  rewrite lookup_app. destruct (lookup t p) as [[| w es] |]; simpl; auto.
  destruct (assoc x es); auto.
Qed.

(** Everything [walk] lists lies strictly below its starting point. *)
Lemma walk_below t : forall p q,
  In q (walk t p) -> exists r, r <> [] /\ q = p ++ r.
Proof.
  induction t as [| w es IH] using node_induction; simpl; intros p q H;
    [tauto |].
  apply in_app_or in H as [H | H].
  - apply in_map_iff in H as (e & <- & _). exists [fst e]. split; [discriminate | auto].
  - apply in_flat_map in H as (e & I & H).
    rewrite Forall_forall in IH. apply (IH e I) in H as (r & N & ->).
    exists (fst e :: r). split; [discriminate |]. rewrite <- app_assoc. auto.
Qed.

(** [walk] lists every path that exists below its starting point. *)
Lemma walk_finds r : forall t p c,
  r <> [] -> lookup t r = Some c -> In (p ++ r) (walk t p).
Proof.
  induction r as [| x r IH]; intros t p c N L; [congruence |].
  simpl in L. destruct t as [| w es]; [discriminate |].
  destruct (assoc x es) as [d |] eqn:A; [| discriminate].
  apply assoc_In in A. simpl. apply in_or_app.
  destruct r as [| y r].
  - left. apply in_map_iff. exists (x, d). auto.
  - right. apply in_flat_map. exists (x, d). split; auto. simpl.
    change (p ++ x :: y :: r) with (p ++ [x] ++ y :: r). rewrite app_assoc.
    eapply IH; eauto. discriminate.
Qed.

Lemma is_dir_lookup t p : is_dir t p = true -> lookup t p <> None.
Proof. unfold is_dir. destruct (lookup t p); [discriminate | discriminate]. Qed.

(** ** What gather_target_dirs returns *)

Lemma in_iterdir t root ps d :
  iterdir t root = inl ps ->
  In d ps /\ is_dir t d = true <-> exists x, d = root ++ [x] /\ is_dir t d = true.
Proof.
  unfold iterdir. destruct (lookup t root) as [[| w es] |] eqn:L; try discriminate.
  intros E. injection E as <-. split.
  - intros [H D]. apply in_map_iff in H as (e & <- & _). eauto.
  - intros (x & -> & D). split; auto.
    unfold is_dir in D. rewrite lookup_snoc, L in D.
    destruct (assoc x es) as [c |] eqn:A; [| discriminate].
    apply assoc_In in A. apply in_map_iff. exists (x, c). auto.
Qed.

Lemma in_rglob_star t root d :
  In d (rglob_star t root) /\ is_dir t d = true <->
  exists r, r <> [] /\ d = root ++ r /\ is_dir t d = true.
Proof.
  unfold rglob_star. split.
  - intros [H D]. destruct (lookup t root) as [c |]; [| destruct H].
    apply walk_below in H as (r & N & ->). eauto.
  - intros (r & N & -> & D). split; auto.
    pose proof (is_dir_lookup _ _ D) as L. rewrite lookup_app in L.
    destruct (lookup t root) as [c |]; [| congruence].
    destruct (lookup c r) as [n |] eqn:Lr; [| congruence].
    eapply walk_finds; eauto.
Qed.

(** Non-recursive mode: the children of [root] that are directories and
    whose name is not ignored. *)
Lemma in_gather_flat t root ds d :
  gather_target_dirs t root false = inl ds ->
  In d ds <->
  exists x, d = root ++ [x] /\ is_dir t d = true /\ ignored x = false.
Proof.
  unfold gather_target_dirs.
  destruct (iterdir t root) as [ps | e] eqn:I; [| discriminate].
  intros E. injection E as <-.
  rewrite filter_In, filter_In, negb_true_iff, (in_iterdir t root ps d I). split.
  - intros [(x & -> & D) G]. rewrite name_snoc in G. eauto.
  - intros (x & -> & D & G). rewrite name_snoc. eauto.
Qed.

(** Recursive mode: the directories strictly below [root] whose own name
    is not ignored. *)
Lemma in_gather_deep t root ds d :
  gather_target_dirs t root true = inl ds ->
  In d ds <->
  exists r, r <> [] /\ d = root ++ r /\ is_dir t d = true
            /\ ignored (name d) = false.
Proof.
  unfold gather_target_dirs. intros E. injection E as <-.
  rewrite filter_In, filter_In, negb_true_iff, in_rglob_star. split.
  - intros [(r & N & -> & D) G]. eauto 6.
  - intros (r & N & -> & D & G). eauto 6.
Qed.

Lemma gather_deep_total t root :
  exists ds, gather_target_dirs t root true = inl ds.
Proof. unfold gather_target_dirs. eauto. Qed.

Lemma gather_flat_total t root :
  is_dir t root = true -> exists ds, gather_target_dirs t root false = inl ds.
Proof.
  unfold gather_target_dirs, iterdir, is_dir.
  destruct (lookup t root) as [[| w es] |]; try discriminate. eauto.
Qed.

(** ** Well-formed trees and what [unlink] changes *)

Lemma is_dir_stat t p :
  is_dir t p = match stat t p with Some (KDir _) => true | _ => false end.
Proof. unfold is_dir, stat. destruct (lookup t p) as [[| w es] |]; auto. Qed.

Lemma assoc_absent x es :
  existsb (String.eqb x) (map fst es) = false -> assoc x es = None.
Proof.
  induction es as [| [y c] es IH]; simpl; auto.
  destruct (String.eqb x y); simpl; [discriminate | auto].
Qed.

Lemma assoc_remove_same y es :
  distinct (map fst es) = true -> assoc y (remove_entry y es) = None.
Proof.
  induction es as [| [z c] es IH]; simpl; auto.
  intros D. apply andb_true_iff in D as [N D]. apply negb_true_iff in N.
  destruct (String.eqb_spec y z) as [-> | Ne].
  - apply assoc_absent; auto.
  - simpl. destruct (String.eqb_spec y z); [congruence | auto].
Qed.

Lemma assoc_remove_other x y es :
  x <> y -> assoc x (remove_entry y es) = assoc x es.
Proof.
  intros Ne. induction es as [| [z c] es IH]; simpl; auto.
  destruct (String.eqb_spec y z) as [-> | Nz]; simpl.
  - destruct (String.eqb_spec x z); [congruence | auto].
  - rewrite IH. auto.
Qed.

Lemma assoc_replace_same y c c' es :
  assoc y es = Some c -> assoc y (replace_entry y c' es) = Some c'.
Proof.
  induction es as [| [z d] es IH]; simpl; [discriminate |].
  destruct (String.eqb_spec y z) as [-> | Nz]; simpl.
  - rewrite String.eqb_refl. auto.
  - destruct (String.eqb_spec y z); [congruence | auto].
Qed.

Lemma assoc_replace_other x y c' es :
  x <> y -> assoc x (replace_entry y c' es) = assoc x es.
Proof.
  intros Ne. induction es as [| [z d] es IH]; simpl; auto.
  destruct (String.eqb_spec y z) as [-> | Nz]; simpl.
  - destruct (String.eqb_spec x z); [congruence | auto].
  - rewrite IH. auto.
Qed.

Lemma names_replace y c' es : map fst (replace_entry y c' es) = map fst es.
Proof.
  induction es as [| [z d] es IH]; simpl; auto.
  destruct (String.eqb y z); simpl; congruence.
Qed.

Lemma absent_remove x y es :
  existsb (String.eqb x) (map fst es) = false ->
  existsb (String.eqb x) (map fst (remove_entry y es)) = false.
Proof.
  induction es as [| [z d] es IH]; simpl; auto.
  intros H. apply orb_false_iff in H as [H1 H2].
  destruct (String.eqb y z); simpl; auto. rewrite H1. auto.
Qed.

Lemma distinct_remove y es :
  distinct (map fst es) = true -> distinct (map fst (remove_entry y es)) = true.
Proof.
  induction es as [| [z d] es IH]; simpl; auto.
  intros D. apply andb_true_iff in D as [N D].
  destruct (String.eqb y z); simpl; auto.
  rewrite IH by auto. apply negb_true_iff in N.
  rewrite absent_remove by auto. auto.
Qed.

Lemma all_wf_remove y es :
  forallb (fun e => wf (snd e)) es = true ->
  forallb (fun e => wf (snd e)) (remove_entry y es) = true.
Proof.
  induction es as [| [z d] es IH]; simpl; auto.
  intros H. apply andb_true_iff in H as [H1 H2].
  destruct (String.eqb y z); simpl; auto. rewrite H1. auto.
Qed.

Lemma all_wf_replace y c' es :
  wf c' = true ->
  forallb (fun e => wf (snd e)) es = true ->
  forallb (fun e => wf (snd e)) (replace_entry y c' es) = true.
Proof.
  intros W. induction es as [| [z d] es IH]; simpl; auto.
  intros H. apply andb_true_iff in H as [H1 H2].
  destruct (String.eqb y z); simpl.
  - rewrite W. auto.
  - rewrite H1. auto.
Qed.

Lemma wf_child w es x c :
  wf (Dir w es) = true -> assoc x es = Some c -> wf c = true.
Proof.
  simpl. intros H A. apply andb_true_iff in H as [_ H].
  apply assoc_In in A. rewrite forallb_forall in H. apply (H (x, c) A).
Qed.

(** What a successful [unlink] of [g] needs and gives, one level down. *)
Lemma unlink_inv t g t' :
  unlink t g = inl t' ->
  exists w es y g' c,
    t = Dir w es /\ g = y :: g' /\ assoc y es = Some c /\
    ((g' = [] /\ w = true /\ c = File /\ t' = Dir w (remove_entry y es)) \/
     (g' <> [] /\ exists c', unlink c g' = inl c' /\
                             t' = Dir w (replace_entry y c' es))).
Proof.
  destruct g as [| y g']; simpl; [discriminate |].
  destruct t as [| w es]; [discriminate |].
  destruct (assoc y es) as [c |] eqn:A; [| discriminate].
  destruct g' as [| z g''].
  - destruct w; simpl; [| discriminate].
    destruct c; [| discriminate]. intros E. injection E as <-.
    exists true, es, y, [], File. intuition.
  - destruct (unlink c (z :: g'')) as [c' |] eqn:U; [| discriminate].
    intros E. injection E as <-.
    exists w, es, y, (z :: g''), c. repeat split; auto.
    right. split; [discriminate | eauto].
Qed.

Lemma unlink_keeps_dir t g t' :
  unlink t g = inl t' -> exists w es es', t = Dir w es /\ t' = Dir w es'.
Proof.
  intros U.
  pose proof (unlink_inv _ _ _ U) as (w & es & y & g' & c & -> & _ & _ & H).
  destruct H as [(_ & _ & _ & ->) | (_ & c' & _ & ->)]; eauto.
Qed.

Lemma wf_unlink g : forall t t',
  wf t = true -> unlink t g = inl t' -> wf t' = true.
Proof.
  induction g as [| y g IH]; intros t t' W U; [discriminate |].
  pose proof (unlink_inv _ _ _ U) as (w & es & y0 & g' & c & -> & E & A & H).
  injection E as <- <-.
  pose proof (wf_child _ _ _ _ W A) as Wc.
  simpl in W. apply andb_true_iff in W as [D F].
  destruct H as [(-> & -> & -> & ->) | (N & c' & Uc & ->)]; simpl.
  - rewrite distinct_remove, all_wf_remove; auto.
  - rewrite names_replace, D, all_wf_replace; eauto.
Qed.

(** After a successful [unlink] of [g], nothing is at [g] and every other
    path is what it was. *)
Lemma stat_unlink g : forall t t' f,
  wf t = true -> unlink t g = inl t' ->
  (f = g -> stat t' f = None) /\ (f <> g -> stat t' f = stat t f).
Proof.
  induction g as [| y g IH]; intros t t' f W U; [discriminate |].
  pose proof (unlink_inv _ _ _ U) as (w & es & y0 & g' & c & -> & E & A & H).
  injection E as <- <-. clear U.
  pose proof (wf_child _ _ _ _ W A) as Wc.
  simpl in W. apply andb_true_iff in W as [D F].
  destruct f as [| x f].
  { split; [discriminate | intros _].
    destruct H as [(_ & _ & _ & ->) | (_ & c' & _ & ->)]; reflexivity. }
  unfold stat. simpl.
  destruct H as [(-> & -> & -> & ->) | (N & c' & Uc & ->)].
  - destruct (String.eqb_spec x y) as [-> | Ne].
    + rewrite assoc_remove_same, A by auto. split; auto.
      intros Nf. destruct f; [congruence | reflexivity].
    + rewrite assoc_remove_other by auto. split; [congruence | auto].
  - destruct (String.eqb_spec x y) as [-> | Ne].
    + rewrite (assoc_replace_same _ _ _ _ A), A.
      destruct (IH c c' f Wc Uc) as [I1 I2]. split.
      * intros E. injection E as ->. apply I1. auto.
      * intros Nf. apply I2. congruence.
    + rewrite assoc_replace_other by auto. split; [congruence | auto].
Qed.

(** A path whose [unlink] fails keeps failing after another path was
    unlinked. *)
Lemma unlink_fail_stable f : forall g t t' e,
  wf t = true -> unlink t g = inl t' -> unlink t f = inr e ->
  exists e', unlink t' f = inr e'.
Proof.
  induction f as [| x f IH]; intros g t t' e W U Ff; [simpl; eauto |].
  pose proof (unlink_inv _ _ _ U) as (w & es & y & g' & c & -> & -> & A & H).
  clear U. pose proof (wf_child _ _ _ _ W A) as Wc.
  simpl in W. apply andb_true_iff in W as [D F].
  simpl in Ff. simpl.
  destruct H as [(-> & -> & -> & ->) | (N & c' & Uc & ->)].
  - destruct (String.eqb_spec x y) as [-> | Ne].
    + rewrite assoc_remove_same by auto. eauto.
    + rewrite assoc_remove_other by auto.
      repeat break_match_in Ff; try discriminate; simpl; eauto.
  - destruct (String.eqb_spec x y) as [-> | Ne].
    + rewrite (assoc_replace_same _ _ _ _ A). rewrite A in Ff.
      destruct f as [| z f'].
      * destruct w; simpl in *; [| eauto].
        destruct (unlink_keeps_dir _ _ _ Uc) as (w1 & es1 & es2 & -> & ->).
        eauto.
      * destruct (unlink c (z :: f')) as [c2 | e2] eqn:U2; [discriminate |].
        destruct (IH g' c c' e2 Wc Uc U2) as (e' & ->). eauto.
    + rewrite assoc_replace_other by auto.
      repeat break_match_in Ff; try discriminate; simpl; eauto.
Qed.

Lemma unlink_ok_file g : forall t t',
  unlink t g = inl t' -> stat t g = Some KFile.
Proof.
  induction g as [| y g IH]; intros t t' U; [discriminate |].
  pose proof (unlink_inv _ _ _ U) as (w & es & y0 & g' & c & -> & E & A & H).
  injection E as <- <-. unfold stat. simpl. rewrite A.
  destruct H as [(-> & -> & -> & ->) | (N & c' & Uc & ->)]; auto.
  apply (IH c c' Uc).
Qed.




(** ** Logs that tell what happened to the file system *)

Lemma trace_app t ms1 t' ms2 t'' :
  trace t ms1 t' -> trace t' ms2 t'' -> trace t (ms1 ++ ms2) t''.
Proof.
  induction 1; simpl; intros T; auto.
  - eapply tr_del; eauto.
  - eapply tr_err; eauto.
  - eapply tr_other; eauto.
Qed.

Lemma trace_wf t ms t' : wf t = true -> trace t ms t' -> wf t' = true.
Proof.
  intros W T. induction T; auto. apply IHT. eapply wf_unlink; eauto.
Qed.

(** Along a trace a path keeps its kind, or it was a file and the log
    says it was deleted. *)
Lemma trace_stat t ms t' :
  wf t = true -> trace t ms t' ->
  forall f,
    stat t' f = stat t f \/
    (stat t f = Some KFile /\ stat t' f = None /\ In (Deleted f) ms).
Proof.
  intros W T.
  induction T as [t | t g t' ms t'' U T IH | t g e ms t' U T IHT
                 | t m ms t' R T IHT]; intros f; auto.
  - pose proof (wf_unlink _ _ _ W U) as W'.
    destruct (stat_unlink g t t' f W U) as [S1 S2].
    destruct (list_eq_dec string_dec f g) as [-> | Ne].
    + right. rewrite (unlink_ok_file _ _ _ U). split; auto. split; [| left; auto].
      destruct (IH W' g) as [E | (E & _)]; rewrite S1 in E by auto; congruence.
    + rewrite <- (S2 Ne). destruct (IH W' f) as [E | (E1 & E2 & I)]; auto.
      right. repeat split; auto. right. auto.
  - destruct (IHT W f) as [E | (E1 & E2 & I)]; auto.
    right. repeat split; auto. right. auto.
  - destruct (IHT W f) as [E | (E1 & E2 & I)]; auto.
    right. repeat split; auto. right. auto.
Qed.

Lemma trace_is_dir t ms t' p :
  wf t = true -> trace t ms t' -> is_dir t' p = is_dir t p.
Proof.
  intros W T. rewrite !is_dir_stat.
  destruct (trace_stat _ _ _ W T p) as [-> | (-> & -> & _)]; auto.
Qed.

Lemma trace_absent t ms t' f :
  wf t = true -> trace t ms t' -> stat t f = None -> stat t' f = None.
Proof.
  intros W T N. destruct (trace_stat _ _ _ W T f) as [-> | (E & _)]; congruence.
Qed.

Lemma trace_fail_stable t ms t' f :
  wf t = true -> trace t ms t' ->
  (exists e, unlink t f = inr e) -> exists e, unlink t' f = inr e.
Proof.
  intros W T.
  induction T as [t | t g t' ms t'' U T IH | t g e0 ms t' U T IH
                 | t m ms t' R T IH]; intros [e Ff]; eauto.
  apply IH.
  - eapply wf_unlink; eauto.
  - eapply unlink_fail_stable; eauto.
Qed.


(** The candidates of a directory, in terms of what exists. *)
Lemma in_candidates_stat t qdir f :
  In f (find_candidate_deletions t qdir) <->
  exists x, f = qdir ++ [x] /\ qn_tex x /\ is_dir t qdir = true
            /\ stat t f <> None.
Proof.
  unfold is_dir, stat.
  destruct (lookup t qdir) as [[| w es] |] eqn:L.
  - unfold find_candidate_deletions, glob. rewrite L. simpl.
    split; [tauto | intros (x & _ & _ & D & _); discriminate].
  - rewrite (in_candidates t qdir w es f L). split.
    + intros (x & c & I & Q & ->). exists x. repeat split; auto.
      rewrite lookup_snoc, L. apply In_assoc in I.
      destruct (assoc x es); [discriminate | congruence].
    + intros (x & -> & Q & _ & N). rewrite lookup_snoc, L in N.
      destruct (assoc x es) as [c |] eqn:A; [| simpl in N; congruence].
      apply assoc_In in A. eauto.
  - unfold find_candidate_deletions, glob. rewrite L. simpl.
    split; [tauto | intros (x & _ & _ & D & _); discriminate].
Qed.

(** Along a trace a directory gains no candidate. *)
Lemma trace_candidates t ms t' qdir f :
  wf t = true -> trace t ms t' ->
  In f (find_candidate_deletions t' qdir) ->
  In f (find_candidate_deletions t qdir).
Proof.
  intros W T. rewrite !in_candidates_stat.
  intros (x & -> & Q & D & N). exists x. repeat split; auto.
  - rewrite <- D. symmetry. eapply trace_is_dir; eauto.
  - intros E. apply N. eapply trace_absent; eauto.
Qed.

(** ** The two loops of [main] *)

Lemma count_tag_app g ms1 ms2 :
  count_tag g (ms1 ++ ms2) = count_tag g ms1 + count_tag g ms2.
Proof. unfold count_tag. rewrite filter_app, length_app. auto. Qed.

Lemma count_actions_app ms1 ms2 :
  count_actions (ms1 ++ ms2) = count_actions ms1 + count_actions ms2.
Proof. unfold count_actions. rewrite filter_app, length_app. auto. Qed.

Lemma answers_allowed a f m :
  answers a f m -> allowed a m = true /\ is_action m = true.
Proof.
  unfold answers, allowed, is_action.
  destruct (dry_run a); [intros -> | intros [-> | [e ->]]]; auto.
Qed.

Lemma answers_all a cs ms :
  Forall2 (answers a) cs ms ->
  Forall (fun m => allowed a m = true) ms /\
  count_actions ms = List.length cs.
Proof.
  unfold count_actions. induction 1 as [| f m cs ms A F [IH1 IH2]]; simpl; auto.
  destruct (answers_allowed _ _ _ A) as [A1 A2]. rewrite A2. simpl. auto.
Qed.

Lemma delete_loop_log a cs : forall st,
  exists ms,
    out (delete_loop a cs st) = out st ++ ms /\
    trace (fs st) ms (fs (delete_loop a cs st)) /\
    Forall2 (answers a) cs ms /\
    total_deleted (delete_loop a cs st) = total_deleted st + count_tag DEL ms /\
    total_candidates (delete_loop a cs st) = total_candidates st.
Proof.
  induction cs as [| f cs IH]; intros st; simpl.
  - exists []. rewrite app_nil_r. repeat split; auto. constructor.
  - destruct (dry_run a) eqn:Dry.
    + destruct (IH (print (DryWould f) st)) as (ms & O & T & A & D & C).
      exists (DryWould f :: ms). simpl in *. rewrite <- app_assoc in O.
      repeat split; auto.
      * apply tr_other; auto.
      * constructor; auto. unfold answers. rewrite Dry. auto.
    + destruct (unlink (fs st) f) as [t' | e] eqn:U.
      * destruct (IH (State t' (out st ++ [Deleted f]) (total_deleted st + 1)
                        (total_candidates st))) as (ms & O & T & A & D & C).
        exists (Deleted f :: ms). simpl in *. rewrite <- app_assoc in O.
        repeat split; auto.
        -- eapply tr_del; eauto.
        -- constructor; auto. unfold answers. rewrite Dry. auto.
        -- rewrite D. change (Deleted f :: ms) with ([Deleted f] ++ ms).
           rewrite count_tag_app. unfold count_tag at 2. simpl. lia.
      * destruct (IH (print (CouldNot f e) st)) as (ms & O & T & A & D & C).
        exists (CouldNot f e :: ms). simpl in *. rewrite <- app_assoc in O.
        repeat split; auto.
        -- eapply tr_err; eauto.
        -- constructor; auto. unfold answers. rewrite Dry. eauto.
Qed.

Lemma answers_deleted a cs ms f :
  Forall2 (answers a) cs ms -> In (Deleted f) ms -> In f cs.
Proof.
  induction 1 as [| g m cs ms A F IH]; simpl; [tauto |].
  intros [-> | I]; auto. left. unfold answers in A.
  destruct (dry_run a); [discriminate |].
  destruct A as [E | [e E]]; congruence.
Qed.

Lemma answers_actions a cs ms :
  Forall2 (answers a) cs ms -> filter is_action ms = ms.
Proof.
  induction 1 as [| f m cs ms A F IH]; simpl; auto.
  destruct (answers_allowed _ _ _ A) as [_ ->]. congruence.
Qed.

(** What [dir_loop] adds to the state: the messages [ms], which tell what
    happened to the files, and the candidates [cands] it considered, each
    answered by one message, in order. *)
Lemma dir_loop_log a ds : forall st,
  exists ms cands,
    out (dir_loop a ds st) = out st ++ ms /\
    trace (fs st) ms (fs (dir_loop a ds st)) /\
    Forall (fun m => allowed a m = true) ms /\
    total_deleted (dir_loop a ds st) = total_deleted st + count_tag DEL ms /\
    total_candidates (dir_loop a ds st)
      = total_candidates st + List.length cands /\
    Forall2 (answers a) cands (filter is_action ms) /\
    (forall f, In f cands -> in_scope ds f).
Proof.
  induction ds as [| d ds IH]; intros st; simpl.
  - exists [], []. rewrite app_nil_r. simpl.
    repeat split; auto; try constructor. intros f [].
  - assert (Scope : forall f, in_scope ds f -> in_scope (d :: ds) f).
    { intros f (d' & x & I & E & Q). exists d', x. simpl. auto. }
    destruct (is_dir (fs st) (d ++ ["questions"])) eqn:Q; simpl.
    + set (cs := find_candidate_deletions (fs st) (d ++ ["questions"])).
      set (st1 := State (fs st) (out st) (total_deleted st)
                    (total_candidates st + List.length cs)).
      destruct (match cs with [] => true | _ :: _ => false end && negb (quiet a))
        eqn:Empty.
      * destruct (IH (print (SkipEmpty (d ++ ["questions"])) st1))
          as (ms & cands & O & T & A & D & C & F & S).
        exists (SkipEmpty (d ++ ["questions"]) :: ms), cands.
        simpl in *. rewrite <- app_assoc in O.
        apply andb_true_iff in Empty as [E1 E2].
        assert (cs = []) as Ecs by (destruct cs; [auto | discriminate]).
        rewrite Ecs in C. simpl in C.
        assert (count_tag DEL (SkipEmpty (d ++ ["questions"]) :: ms)
                = count_tag DEL ms) as -> by reflexivity.
        split; [exact O |]. split; [apply tr_other; auto |].
        split; [constructor; auto |]. split; [exact D |].
        split; [rewrite C; lia |]. split; [exact F |]. auto.
      * destruct (delete_loop_log a cs st1) as (ms1 & O1 & T1 & A1 & D1 & C1).
        destruct (IH (delete_loop a cs st1))
          as (ms & cands & O & T & A & D & C & F & S).
        destruct (answers_all _ _ _ A1) as [L1 N1].
        exists (ms1 ++ ms), (cs ++ cands). rewrite O, O1, D, D1, C, C1. simpl.
        rewrite app_assoc, count_tag_app, length_app, filter_app.
        rewrite (answers_actions _ _ _ A1).
        split; [reflexivity |]. split; [eapply trace_app; eauto |].
        split; [apply Forall_app; auto |]. split; [lia |]. split; [lia |].
        split; [apply Forall2_app; auto |].
        intros f I. apply in_app_or in I as [I | I]; auto.
        apply in_candidates_stat in I as (x & -> & Qx & _).
        exists d, x. rewrite <- app_assoc. simpl. auto.
    + destruct (IH st) as (ms & cands & O & T & A & D & C & F & S).
      exists ms, cands. repeat split; auto.
Qed.

(** ** Sorting keeps the directories *)

Lemma in_insert d p l : In d (insert p l) <-> d = p \/ In d l.
Proof.
  induction l as [| q l IH]; simpl.
  - intuition.
  - destruct (path_ltb q p); simpl; rewrite ?IH; intuition.
Qed.

Lemma in_sorted d l : In d (sorted l) <-> In d l.
Proof.
  induction l as [| p l IH]; simpl; [tauto |].
  rewrite in_insert, IH. intuition.
Qed.

(** ** Whole runs *)

(** [main] aborts exactly when the root cannot be listed. *)
Lemma gather_total t r rc :
  rc = true \/ is_dir t r = true ->
  exists ds, gather_target_dirs t r rc = inl ds.
Proof.
  intros [-> | D].
  - apply gather_deep_total.
  - destruct rc; [apply gather_deep_total | apply gather_flat_total; auto].
Qed.

Lemma banner_tags a : Forall (fun m => tag_of m = INFO) (banner a).
Proof.
  unfold banner. destruct (quiet a), (recursive a), (dry_run a); simpl;
    repeat constructor.
Qed.

Lemma summary_print a m st : summary a (print m st) = summary a st.
Proof. reflexivity. Qed.

(** The log of a run that got its directories [ds]. *)
Lemma main_log a t ds :
  gather_target_dirs t (root a) (recursive a) = inl ds ->
  exists st ms cands,
    main a t = Completed st /\
    out st = banner a ++ ms ++ [summary a st] /\
    trace t ms (fs st) /\
    Forall (fun m => allowed a m = true) ms /\
    total_deleted st = count_tag DEL ms /\
    total_candidates st = List.length cands /\
    Forall2 (answers a) cands (filter is_action ms) /\
    (forall f, In f cands -> in_scope ds f).
Proof.
  intros G. unfold main. rewrite G.
  destruct (dir_loop_log a (sorted ds) (State t (banner a) 0 0))
    as (ms & cands & O & T & A & D & C & F & S).
  simpl in *.
  eexists _, ms, cands. split; [reflexivity |].
  rewrite summary_print. simpl. rewrite O, app_assoc.
  repeat split; auto.
  intros f I. destruct (S f I) as (d & x & Id & E & Q).
  exists d, x. rewrite in_sorted in Id. auto.
Qed.

(* ------------------------------------------------------------------ *)
(** * The claims *)

(** ** C1 *)

(** C1, as stated, fails: a file whose name is [q1.tex] followed by a
    newline matches [PLAIN_Q_REGEX] (Python's [$] accepts the position
    before a final newline) but the glob [q*.tex] does not enumerate it,
    so it is not a candidate. *)
Lemma C1_newline_name_not_selected :
  lookup tree_newline ["R"; "A"; "questions"]
    = Some (Dir true [(q1_tex_newline, File)]) /\
  regex_match PLAIN_Q_REGEX q1_tex_newline = true /\
  ~ In (["R"; "A"; "questions"] ++ [q1_tex_newline])
       (find_candidate_deletions tree_newline ["R"; "A"; "questions"]).
Proof.
  split; [reflexivity |]. split; [reflexivity |].
  vm_compute. tauto.
Qed.

(** C1 (amended): every entry directly inside a directory is a candidate
    if its name is [q], one or more digits, [.tex] and nothing else (that
    is, it matches both the glob [q*.tex] and [PLAIN_Q_REGEX]); it is never
    a candidate if its name matches [PROTECTED_REGEX], nor if it does not
    match [PLAIN_Q_REGEX]; the function returns a list in every case. *)
Theorem C1_candidates_by_name t qdir w es x c :
  lookup t qdir = Some (Dir w es) ->
  In (x, c) es ->
  (qn_tex x -> In (qdir ++ [x]) (find_candidate_deletions t qdir)) /\
  (glob_q_tex x = true -> regex_match PLAIN_Q_REGEX x = true ->
   In (qdir ++ [x]) (find_candidate_deletions t qdir)) /\
  (regex_match PROTECTED_REGEX x = true ->
   ~ In (qdir ++ [x]) (find_candidate_deletions t qdir)) /\
  (regex_match PLAIN_Q_REGEX x = false ->
   ~ In (qdir ++ [x]) (find_candidate_deletions t qdir)).
Proof.
  intros L I.
  assert (Q : qn_tex x -> In (qdir ++ [x]) (find_candidate_deletions t qdir)).
  { intros Q. apply (in_candidates t qdir w es _ L). eauto. }
  split; [exact Q |]. split; [| split].
  - intros G P. apply Q. apply qn_tex_iff. auto.
  - intros P H. unfold find_candidate_deletions in H.
    apply in_classify in H as (_ & F & _). rewrite name_snoc in F. congruence.
  - intros P H. unfold find_candidate_deletions in H.
    apply in_classify in H as (_ & _ & F). rewrite name_snoc in F. congruence.
Qed.

Lemma C1_candidates_by_name_witness :
  lookup tree_course ["R"; "A"; "questions"]
    = Some (Dir true [("q1.tex", File); ("q1_soln.tex", File);
                      ("q1_xm.tex", File); ("q2.tex", File)]) /\
  In ("q1_soln.tex", File)
     [("q1.tex", File); ("q1_soln.tex", File);
      ("q1_xm.tex", File); ("q2.tex", File)] /\
  ~ In (["R"; "A"; "questions"] ++ ["q1_soln.tex"])
       (find_candidate_deletions tree_course ["R"; "A"; "questions"]).
Proof.
  split; [reflexivity |]. split; [simpl; auto |].
  apply (C1_candidates_by_name tree_course ["R"; "A"; "questions"] true
           [("q1.tex", File); ("q1_soln.tex", File);
            ("q1_xm.tex", File); ("q2.tex", File)]
           "q1_soln.tex" File eq_refl (or_intror (or_introl eq_refl))).
  reflexivity.
Defined.

(** ** C9 *)

(** C9: no name matches both [PLAIN_Q_REGEX] and [PROTECTED_REGEX], and
    so [find_candidate_deletions] returns the same list when the plain
    check is made before the protected one. *)
Theorem C9_patterns_exclusive :
  (forall x,
     ~ (regex_match PLAIN_Q_REGEX x = true /\
        regex_match PROTECTED_REGEX x = true)) /\
  (forall t qdir,
     find_candidate_deletions_plain_first t qdir
     = find_candidate_deletions t qdir).
Proof.
  split.
  - intros x [P Q]. rewrite (plain_not_protected x P) in Q. discriminate.
  - intros t qdir.
    unfold find_candidate_deletions_plain_first, find_candidate_deletions.
    induction (glob glob_q_tex t qdir) as [| p ps IH]; simpl; auto.
    destruct (regex_match PLAIN_Q_REGEX (name p)) eqn:P.
    + rewrite (plain_not_protected _ P). congruence.
    + destruct (regex_match PROTECTED_REGEX (name p)); auto.
Qed.

(** ** C2 *)

Lemma ignored_spec x :
  ignored x = true <-> x = "xmScripts" \/ x = ".vscode" \/ x = ".git".
Proof.
  unfold ignored, IGNORE_DIRS. simpl.
  rewrite !orb_true_iff, !String.eqb_eq. intuition discriminate.
Qed.

(** C2 does not hold of the code in recursive mode.  [gather_target_dirs]
    is to ignore the directories named [xmScripts], [.vscode] and [.git],
    but it filters the result of [rglob] by the own name of each
    directory and does not prune the walk.  In [tree_course] the
    directory [R/xmScripts/sub] lies below the ignored [R/xmScripts]: the
    recursive listing of [R] returns it, and a live recursive run over
    [R] deletes [R/xmScripts/sub/questions/q9.tex].  The non-recursive
    run over [R] lists nothing below [R/xmScripts] and keeps the file. *)
Theorem C2_recursive_run_enters_ignored :
  is_dir tree_course ["R"; "xmScripts"] = true /\
  ignored (name ["R"; "xmScripts"]) = true /\
  gather_target_dirs tree_course ["R"] true
  = inl [["R"; "A"]; ["R"; "questions"]; ["R"; "A"; "questions"];
         ["R"; "A"; "B"]; ["R"; "A"; "B"; "questions"];
         ["R"; "xmScripts"; "sub"]; ["R"; "xmScripts"; "sub"; "questions"]] /\
  stat tree_course ["R"; "xmScripts"; "sub"; "questions"; "q9.tex"]
  = Some KFile /\
  (exists st,
     main (Args ["R"] false true true) tree_course = Completed st /\
     out st
     = [Deleted ["R"; "A"; "questions"; "q1.tex"];
        Deleted ["R"; "A"; "questions"; "q2.tex"];
        Deleted ["R"; "A"; "B"; "questions"; "q2.tex"];
        Deleted ["R"; "xmScripts"; "sub"; "questions"; "q9.tex"];
        SummaryLive 4] /\
     stat (fs st) ["R"; "xmScripts"; "sub"; "questions"; "q9.tex"] = None) /\
  (exists st,
     main (Args ["R"] false false true) tree_course = Completed st /\
     gather_target_dirs tree_course ["R"] false
     = inl [["R"; "A"]; ["R"; "questions"]] /\
     stat (fs st) ["R"; "xmScripts"; "sub"; "questions"; "q9.tex"]
     = Some KFile).
Proof.
  split; [reflexivity |]. split; [reflexivity |]. split; [reflexivity |].
  split; [reflexivity |]. split.
  - eexists. split; [reflexivity |]. split; reflexivity.
  - eexists. split; [reflexivity |]. split; reflexivity.
Qed.

(** ** C10 *)

(** C10: entries are classified by name alone.  In [tree_stubborn] the
    directory [R/A/questions/q1.tex] is returned as a candidate, is
    counted by the dry run, and in live mode its [unlink] is attempted
    and reported as [ERR]. *)
Theorem C10_directory_is_candidate :
  is_dir tree_stubborn ["R"; "A"; "questions"; "q1.tex"] = true /\
  find_candidate_deletions tree_stubborn ["R"; "A"; "questions"]
    = [["R"; "A"; "questions"; "q1.tex"]] /\
  out (final (main (Args ["R"] true false true) tree_stubborn))
    = [DryWould ["R"; "A"; "questions"; "q1.tex"];
       DryWould ["R"; "B"; "questions"; "q7.tex"];
       SummaryDry 2] /\
  out (final (main (Args ["R"] false false true) tree_stubborn))
    = [CouldNot ["R"; "A"; "questions"; "q1.tex"] EISDIR;
       CouldNot ["R"; "B"; "questions"; "q7.tex"] EACCES;
       SummaryLive 0] /\
  render (CouldNot ["R"; "A"; "questions"; "q1.tex"] EISDIR)
    = "[ERR] Could not delete /R/A/questions/q1.tex: [Errno 21] Is a directory: '/R/A/questions/q1.tex'".
Proof. repeat split. Qed.

(** ** C3 *)

Lemma count_tag_none g ms :
  Forall (fun m => tag_eqb (tag_of m) g = false) ms -> count_tag g ms = 0.
Proof.
  unfold count_tag. induction 1 as [| m ms E F IH]; simpl; auto.
  rewrite E. auto.
Qed.

Lemma count_tag_banner a g : g <> INFO -> count_tag g (banner a) = 0.
Proof.
  intros N. apply count_tag_none.
  eapply Forall_impl; [| apply banner_tags].
  intros m E. simpl in E. rewrite E. destruct g; auto. congruence.
Qed.

Lemma allowed_count a g ms :
  Forall (fun m => allowed a m = true) ms ->
  (forall m, tag_of m = g -> allowed a m = false) ->
  count_tag g ms = 0.
Proof.
  intros A N. apply count_tag_none. eapply Forall_impl; [| exact A].
  intros m Am. simpl in Am.
  destruct (tag_eqb (tag_of m) g) eqn:E; auto.
  assert (tag_of m = g) as Eg by (destruct (tag_of m), g; auto; discriminate).
  rewrite (N m Eg) in Am. discriminate.
Qed.

(** A log without [DEL] leaves the tree as it was. *)
Lemma trace_no_del t ms t' : trace t ms t' -> count_tag DEL ms = 0 -> t' = t.
Proof.
  unfold count_tag. induction 1; simpl; auto; try discriminate.
  destruct m; simpl in *; auto; discriminate.
Qed.

Lemma count_tag_summary a st g : g <> SUMMARY -> count_tag g [summary a st] = 0.
Proof.
  intros N. unfold summary, count_tag.
  destruct (dry_run a), g; simpl; auto; congruence.
Qed.

(** C3: a run with [--dry-run] leaves the file system as it found it,
    whatever the root and the other options, and reports no deletion. *)
Theorem C3_dry_run_changes_nothing r rc q t :
  fs (final (main (Args r true rc q) t)) = t /\
  count_tag DEL (out (final (main (Args r true rc q) t))) = 0.
Proof.
  set (a := Args r true rc q).
  destruct (gather_target_dirs t (root a) (recursive a)) as [ds | e] eqn:G.
  - destruct (main_log a t ds G) as (st & ms & cands & M & O & T & A & _).
    rewrite M. simpl.
    assert (Z : count_tag DEL ms = 0).
    { apply (allowed_count a); auto. intros m E. unfold allowed. rewrite E. auto. }
    split.
    + apply (trace_no_del _ _ _ T Z).
    + rewrite O, !count_tag_app, Z, count_tag_banner, count_tag_summary;
        auto; discriminate.
  - unfold main. rewrite G. simpl. split; auto.
    apply count_tag_banner. discriminate.
Qed.

(** ** C4 *)

(** C4, as stated, fails: [--quiet] does not silence the per-action
    messages; a quiet live run over [tree_course] prints [DEL] lines. *)
Lemma C4_quiet_run_prints_del :
  quiet (Args ["R"] false false true) = true /\
  exists m,
    In m (out (final (main (Args ["R"] false false true) tree_course))) /\
    tag_of m = DEL.
Proof.
  split; [reflexivity |].
  exists (Deleted ["R"; "A"; "questions"; "q1.tex"]). split; [| reflexivity].
  vm_compute. tauto.
Qed.

Lemma actions_allowed a ms :
  Forall (fun m => allowed a m = true) ms ->
  count_actions ms = count_tag DRY ms + count_tag DEL ms + count_tag ERR ms.
Proof.
  unfold count_actions, count_tag.
  induction 1 as [| m ms A F IH]; simpl; auto.
  assert (E : is_action m = match tag_of m with
                            | DRY | DEL | ERR => true | _ => false end)
    by reflexivity.
  rewrite E. destruct (tag_of m); simpl; rewrite IH; lia.
Qed.

(** C4 (amended): with [--quiet] no [INFO] and no [SKIP] message is
    printed; the [DRY], [DEL] and [ERR] messages are still printed, one
    for every candidate considered; and a run that gets its directories
    ends with the one [SUMMARY] message. *)
Theorem C4_quiet_silences_info_and_skip a t :
  quiet a = true ->
  count_tag INFO (out (final (main a t))) = 0 /\
  count_tag SKIP (out (final (main a t))) = 0 /\
  (forall ds,
     gather_target_dirs t (root a) (recursive a) = inl ds ->
     exists st ms,
       main a t = Completed st /\
       out st = ms ++ [summary a st] /\
       tag_of (summary a st) = SUMMARY /\
       count_tag SUMMARY ms = 0 /\
       count_tag DRY ms + count_tag DEL ms + count_tag ERR ms
         = total_candidates st).
Proof.
  intros Q.
  assert (B : banner a = []) by (unfold banner; rewrite Q; auto).
  destruct (gather_target_dirs t (root a) (recursive a)) as [ds | e] eqn:G.
  - destruct (main_log a t ds G) as (st & ms & cands & M & O & T & A & D & C & F & S).
    rewrite B in O. simpl in O. rewrite M. simpl.
    assert (Zi : count_tag INFO ms = 0).
    { apply (allowed_count a); auto. intros m E. unfold allowed. rewrite E. auto. }
    assert (Zs : count_tag SKIP ms = 0).
    { apply (allowed_count a); auto. intros m E. unfold allowed.
      rewrite E, Q. auto. }
    assert (Zm : count_tag SUMMARY ms = 0).
    { apply (allowed_count a); auto. intros m E. unfold allowed. rewrite E. auto. }
    rewrite O, !count_tag_app, Zi, Zs, !count_tag_summary by discriminate.
    split; auto. split; auto.
    intros ds' E. injection E as <-. exists st, ms.
    repeat split; auto.
    + unfold summary. destruct (dry_run a); auto.
    + rewrite <- (actions_allowed a ms A). rewrite C. unfold count_actions.
      symmetry. eapply Forall2_length; eauto.
  - unfold main. rewrite G. simpl. rewrite B. repeat split; auto.
    intros ds E. discriminate.
Qed.

Lemma C4_quiet_silences_info_and_skip_witness :
  quiet (Args ["R"] false true true) = true /\
  count_tag INFO (out (final (main (Args ["R"] false true true) tree_course))) = 0.
Proof.
  split; [reflexivity |].
  apply (C4_quiet_silences_info_and_skip (Args ["R"] false true true)
           tree_course eq_refl).
Defined.

(** ** C6 *)

Lemma candidates_not_dir t qdir :
  is_dir t qdir = false -> find_candidate_deletions t qdir = [].
Proof.
  unfold is_dir, find_candidate_deletions, glob.
  destruct (lookup t qdir) as [[| w es] |]; auto. discriminate.
Qed.





(** ** C8 *)

(** C8, as stated, fails: in recursive mode the directory [R/xmScripts]
    lies below the root and is not returned. *)
Lemma C8_ignored_descendant_not_returned :
  is_dir tree_course (["R"] ++ ["xmScripts"]) = true /\
  exists ds,
    gather_target_dirs tree_course ["R"] true = inl ds /\
    ~ In (["R"] ++ ["xmScripts"]) ds.
Proof.
  split; [reflexivity |]. eexists. split; [reflexivity |].
  simpl. intros H.
  repeat (destruct H as [H | H]; [discriminate |]). exact H.
Qed.

(** C8 (amended): in non-recursive mode [gather_target_dirs] returns
    exactly the direct child directories of the root whose base name is
    not ignored; in recursive mode exactly the directories at any depth
    below the root whose own base name is not ignored; the root is never
    returned.  A run changes the tree only by removing files that lie
    in the [questions] folder of a returned directory and are named
    [q<digits>.tex]. *)
Theorem C8_scope_of_a_run t r rc ds :
  gather_target_dirs t r rc = inl ds ->
  (rc = false ->
   forall d, In d ds <->
     exists x, d = r ++ [x] /\ is_dir t d = true /\ ignored x = false) /\
  (rc = true ->
   forall d, In d ds <->
     exists p, p <> [] /\ d = r ++ p /\ is_dir t d = true
               /\ ignored (name d) = false) /\
  ~ In r ds /\
  (forall dry q st,
     wf t = true ->
     main (Args r dry rc q) t = Completed st ->
     forall f, stat (fs st) f <> stat t f ->
       stat t f = Some KFile /\ stat (fs st) f = None /\ in_scope ds f).
Proof.
  intros G. split; [| split; [| split]].
  - intros -> d. apply (in_gather_flat t r ds d G).
  - intros -> d. apply (in_gather_deep t r ds d G).
  - intros I. assert (exists p, p <> [] /\ r = r ++ p) as (p & N & E).
    { destruct rc.
      - apply (in_gather_deep t r ds r G) in I as (p & N & E & _). eauto.
      - apply (in_gather_flat t r ds r G) in I as (x & E & _).
        exists [x]. split; [discriminate | auto]. }
    rewrite <- (app_nil_r r) in E at 1. apply app_inv_head in E. congruence.
  - intros dry q st W M f Ne.
    destruct (main_log (Args r dry rc q) t ds G)
      as (st' & ms & cands & M' & O & T & A & D & C & F & S).
    rewrite M in M'. injection M' as <-.
    destruct (trace_stat _ _ _ W T f) as [E | (E1 & E2 & I)]; [congruence |].
    repeat split; auto. apply S.
    apply (answers_deleted (Args r dry rc q) cands (filter is_action ms)); auto.
    apply filter_In. auto.
Qed.

Lemma C8_scope_of_a_run_witness :
  gather_target_dirs tree_course ["R"] false
    = inl [["R"; "A"]; ["R"; "questions"]] /\
  ~ In ["R"] [["R"; "A"]; ["R"; "questions"]] /\
  in_scope [["R"; "A"]; ["R"; "questions"]] ["R"; "A"; "questions"; "q1.tex"].
Proof.
  split; [reflexivity |].
  destruct (C8_scope_of_a_run tree_course ["R"] false
              [["R"; "A"]; ["R"; "questions"]] eq_refl) as (_ & _ & NR & Sc).
  split; [exact NR |].
  apply (Sc false true _ eq_refl eq_refl ["R"; "A"; "questions"; "q1.tex"]).
  vm_compute. discriminate.
Defined.

(** ** C7 *)

(** After the loop over a directory's candidates, in live mode, each of
    them is gone, or cannot be unlinked and was reported. *)
Lemma delete_loop_settles a cs : forall st,
  wf (fs st) = true -> dry_run a = false ->
  forall f, In f cs ->
    stat (fs (delete_loop a cs st)) f = None \/
    ((exists e, unlink (fs (delete_loop a cs st)) f = inr e) /\
     (exists e, In (CouldNot f e) (out (delete_loop a cs st)))).
Proof.
  induction cs as [| g cs IH]; intros st W Live f I; [destruct I |].
  simpl. rewrite Live.
  destruct (unlink (fs st) g) as [t' | e] eqn:U.
  - set (st1 := State t' (out st ++ [Deleted g]) (total_deleted st + 1)
                  (total_candidates st)).
    assert (W1 : wf (fs st1) = true) by (simpl; eapply wf_unlink; eauto).
    destruct I as [<- | I]; [| apply IH; auto].
    left. destruct (delete_loop_log a cs st1) as (ms & _ & T & _).
    apply (trace_absent _ _ _ _ W1 T). simpl.
    apply (stat_unlink g (fs st) t' g W U). reflexivity.
  - set (st1 := print (CouldNot g e) st).
    destruct I as [<- | I]; [| apply (IH st1); auto].
    right. destruct (delete_loop_log a cs st1) as (ms & O & T & _).
    split.
    + apply (trace_fail_stable _ _ _ _ W T). eauto.
    + exists e. rewrite O. simpl. apply in_or_app. left.
      apply in_or_app. right. simpl. auto.
Qed.

(** After a live run over the directories [ds], every candidate still
    found in one of them cannot be unlinked and was reported. *)
Lemma dir_loop_settles a ds : forall st,
  wf (fs st) = true -> dry_run a = false ->
  forall d, In d ds ->
  forall f, In f (find_candidate_deletions (fs (dir_loop a ds st))
                    (d ++ ["questions"])) ->
    (exists e, unlink (fs (dir_loop a ds st)) f = inr e) /\
    (exists e, In (CouldNot f e) (out (dir_loop a ds st))).
Proof.
  induction ds as [| d0 ds IH]; intros st W Live d I f C; [destruct I |].
  simpl in *.
  destruct (is_dir (fs st) (d0 ++ ["questions"])) eqn:Q; simpl in *.
  - set (cs := find_candidate_deletions (fs st) (d0 ++ ["questions"])) in *.
    set (st0 := State (fs st) (out st) (total_deleted st)
                  (total_candidates st + List.length cs)) in *.
    destruct (match cs with [] => true | _ :: _ => false end && negb (quiet a))
      eqn:Empty.
    + set (st1 := print (SkipEmpty (d0 ++ ["questions"])) st0) in *.
      destruct I as [<- | I]; [| apply (IH st1 W Live d I f C)].
      exfalso. destruct (dir_loop_log a ds st1) as (ms & cands & _ & T & _).
      apply (trace_candidates _ _ _ _ _ W T) in C. simpl in C.
      apply andb_true_iff in Empty as [E _]. fold cs in C.
      destruct cs; [destruct C | discriminate].
    + set (st1 := delete_loop a cs st0) in *.
      destruct (delete_loop_log a cs st0) as (ms1 & O1 & T1 & _).
      assert (W1 : wf (fs st1) = true) by (eapply trace_wf; eauto).
      destruct I as [<- | I]; [| apply (IH st1 W1 Live d I f C)].
      destruct (dir_loop_log a ds st1) as (ms & cands & O & T & _).
      pose proof (trace_candidates _ _ _ _ _ W1 T C) as C1.
      pose proof (trace_candidates _ _ _ _ _ W T1 C1) as C0.
      simpl in C0. fold cs in C0.
      destruct (delete_loop_settles a cs st0 W Live f C0) as [N | [Ff [e E]]].
      * exfalso. apply in_candidates_stat in C1 as (x & _ & _ & _ & N1). auto.
      * split.
        -- apply (trace_fail_stable _ _ _ _ W1 T Ff).
        -- exists e. rewrite O. apply in_or_app. auto.
  - destruct I as [<- | I]; [| apply (IH st W Live d I f C)].
    exfalso. destruct (dir_loop_log a ds st) as (ms & cands & _ & T & _).
    apply (trace_candidates _ _ _ _ _ W T) in C.
    rewrite (candidates_not_dir _ _ Q) in C. destruct C.
Qed.

Lemma delete_loop_settled a cs : forall st,
  dry_run a = false ->
  (forall f, In f cs -> exists e, unlink (fs st) f = inr e) ->
  fs (delete_loop a cs st) = fs st /\
  total_deleted (delete_loop a cs st) = total_deleted st /\
  total_candidates (delete_loop a cs st) = total_candidates st /\
  exists ms,
    out (delete_loop a cs st) = out st ++ ms /\
    Forall2 (fun f m => exists e, m = CouldNot f e) cs ms.
Proof.
  induction cs as [| g cs IH]; intros st Live H; simpl.
  - repeat (split; [reflexivity |]). exists []. rewrite app_nil_r. auto.
  - rewrite Live. destruct (H g (or_introl eq_refl)) as [e ->].
    destruct (IH (print (CouldNot g e) st) Live) as (E1 & E2 & E3 & ms & O & F).
    { intros f I. apply H. right. auto. }
    rewrite E1, E2, E3. repeat (split; [reflexivity |]).
    exists (CouldNot g e :: ms). rewrite O. simpl. rewrite <- app_assoc.
    split; auto. constructor; eauto.
Qed.

Lemma settled_messages t d ds cs ms :
  Forall2 (fun f m => exists e, m = CouldNot f e) cs ms ->
  (forall f, In f cs -> In f (find_candidate_deletions t (d ++ ["questions"]))) ->
  count_tag ERR ms = List.length cs /\
  Forall (idle_message t (d :: ds)) ms.
Proof.
  unfold count_tag.
  induction 1 as [| f m cs ms [e ->] F IH]; simpl; intros G; auto.
  destruct IH as [-> I2]; [intros g I; apply G; auto |].
  split; auto. constructor; auto. simpl. exists d. split; auto.
Qed.

(** A live run over directories whose candidates all resist deletes
    nothing. *)
Lemma dir_loop_settled a ds : forall st,
  dry_run a = false ->
  (forall d, In d ds ->
   forall f, In f (find_candidate_deletions (fs st) (d ++ ["questions"])) ->
     exists e, unlink (fs st) f = inr e) ->
  fs (dir_loop a ds st) = fs st /\
  total_deleted (dir_loop a ds st) = total_deleted st /\
  exists ms,
    out (dir_loop a ds st) = out st ++ ms /\
    Forall (idle_message (fs st) ds) ms /\
    total_candidates (dir_loop a ds st)
      = total_candidates st + count_tag ERR ms.
Proof.
  induction ds as [| d ds IH]; intros st Live H; simpl.
  - split; [reflexivity |]. split; [reflexivity |].
    exists []. rewrite app_nil_r. auto.
  - assert (Hds : forall d', In d' ds ->
              forall f, In f (find_candidate_deletions (fs st) (d' ++ ["questions"])) ->
                exists e, unlink (fs st) f = inr e).
    { intros d' I. apply H. right. auto. }
    assert (Mono : forall ms, Forall (idle_message (fs st) ds) ms ->
                              Forall (idle_message (fs st) (d :: ds)) ms).
    { intros ms. apply Forall_impl. intros [] M; simpl in *; auto.
      destruct M as (d' & I & C). exists d'. auto. }
    destruct (is_dir (fs st) (d ++ ["questions"])) eqn:Q; simpl.
    + set (cs := find_candidate_deletions (fs st) (d ++ ["questions"])).
      set (st0 := State (fs st) (out st) (total_deleted st)
                    (total_candidates st + List.length cs)).
      destruct (match cs with [] => true | _ :: _ => false end && negb (quiet a))
        eqn:Empty.
      * destruct (IH (print (SkipEmpty (d ++ ["questions"])) st0) Live Hds)
          as (E1 & E2 & ms & O & F & C).
        apply andb_true_iff in Empty as [E _].
        assert (cs = []) as Ecs by (destruct cs; [auto | discriminate]).
        rewrite E1, E2. split; [reflexivity |]. split; [reflexivity |].
        exists (SkipEmpty (d ++ ["questions"]) :: ms).
        rewrite O, C. simpl. rewrite <- app_assoc, Ecs. simpl.
        split; [reflexivity |]. split.
        -- constructor; simpl; auto.
        -- change (SkipEmpty (d ++ ["questions"]) :: ms)
             with ([SkipEmpty (d ++ ["questions"])] ++ ms).
           rewrite count_tag_app. unfold count_tag. simpl. lia.
      * destruct (delete_loop_settled a cs st0 Live)
          as (D1 & D2 & D3 & ms1 & O1 & F1).
        { intros f I. apply (H d (or_introl eq_refl) f I). }
        destruct (IH (delete_loop a cs st0) Live) as (E1 & E2 & ms & O & F & C).
        { rewrite D1. exact Hds. }
        rewrite E1, E2, D1, D2. split; [reflexivity |]. split; [reflexivity |].
        exists (ms1 ++ ms). rewrite O, O1, C, D3. rewrite D1 in F. simpl.
        rewrite app_assoc, count_tag_app.
        assert (N : count_tag ERR ms1 = List.length cs /\
                    Forall (idle_message (fs st) (d :: ds)) ms1).
        { apply (settled_messages (fs st) d ds cs ms1 F1). auto. }
        destruct N as [N1 N2]. rewrite N1.
        split; [reflexivity |]. split; [| lia].
        apply Forall_app. split; auto.
    + destruct (IH st Live Hds) as (E1 & E2 & ms & O & F & C).
      split; [exact E1 |]. split; [exact E2 |]. exists ms. auto.
Qed.

Lemma gather_ok_inv t r rc ds :
  gather_target_dirs t r rc = inl ds -> rc = true \/ is_dir t r = true.
Proof.
  destruct rc; auto. unfold gather_target_dirs, iterdir, is_dir.
  destruct (lookup t r) as [[| w es] |]; try discriminate. auto.
Qed.

(** Unlinking files lets no new directory into the list. *)
Lemma gather_trace t ms t' r rc ds ds' :
  wf t = true -> trace t ms t' ->
  gather_target_dirs t r rc = inl ds ->
  gather_target_dirs t' r rc = inl ds' ->
  forall d, In d ds' -> In d ds.
Proof.
  intros W T G G' d I. destruct rc.
  - apply (in_gather_deep t' r ds' d G') in I as (p & N & E & D & Ig).
    apply (in_gather_deep t r ds d G). exists p. repeat split; auto.
    rewrite <- D. symmetry. eapply trace_is_dir; eauto.
  - apply (in_gather_flat t' r ds' d G') in I as (x & E & D & Ig).
    apply (in_gather_flat t r ds d G). exists x. repeat split; auto.
    rewrite <- D. symmetry. eapply trace_is_dir; eauto.
Qed.

Lemma count_tag_pos g m ms :
  In m ms -> tag_eqb (tag_of m) g = true -> count_tag g ms > 0.
Proof.
  unfold count_tag. intros I E. apply in_split in I as (l1 & l2 & ->).
  rewrite filter_app, length_app. simpl. rewrite E. simpl. lia.
Qed.

(** C7, as stated, fails: what the first live run could not delete is
    found again by the second.  Over [tree_stubborn] the second run
    still finds two candidates. *)
Lemma C7_second_run_finds_candidates :
  exists st1 st2,
    main (Args ["R"] false false true) tree_stubborn = Completed st1 /\
    main (Args ["R"] false false true) (fs st1) = Completed st2 /\
    total_candidates st2 = 2.
Proof. eexists _, _. repeat split. Qed.

(** C7 (amended): after a live run over a well-formed tree, a second
    live run with the same options over the tree it left completes,
    deletes nothing, leaves the tree as it is and reports [Deleted 0].
    The candidates it finds are files whose deletion the first run
    reported as failed: it finds none when the first run printed no
    [ERR]. *)
Theorem C7_second_run_deletes_nothing a t st1 :
  wf t = true ->
  dry_run a = false ->
  main a t = Completed st1 ->
  exists st2,
    main a (fs st1) = Completed st2 /\
    fs st2 = fs st1 /\
    total_deleted st2 = 0 /\
    count_tag DEL (out st2) = 0 /\
    summary a st2 = SummaryLive 0 /\
    (forall f e, In (CouldNot f e) (out st2) ->
                 exists e', In (CouldNot f e') (out st1)) /\
    total_candidates st2 = count_tag ERR (out st2) /\
    (count_tag ERR (out st1) = 0 -> total_candidates st2 = 0).
Proof.
  intros W Live M.
  destruct (gather_target_dirs t (root a) (recursive a)) as [ds | e0] eqn:G;
    [| unfold main in M; rewrite G in M; discriminate].
  unfold main in M. rewrite G in M. injection M as <-.
  set (stL := dir_loop a (sorted ds) (State t (banner a) 0 0)).
  destruct (dir_loop_log a (sorted ds) (State t (banner a) 0 0))
    as (ms1 & cands1 & O1 & T1 & _).
  fold stL in O1, T1. simpl in O1, T1.
  assert (WL : wf (fs stL) = true) by (eapply trace_wf; eauto).
  destruct (gather_total (fs stL) (root a) (recursive a)) as [ds2 G2].
  { destruct (gather_ok_inv _ _ _ _ G) as [R | D]; auto. right.
    rewrite <- D. eapply trace_is_dir; eauto. }
  pose proof (dir_loop_settles a (sorted ds) (State t (banner a) 0 0) W Live)
    as Settled. fold stL in Settled.
  destruct (dir_loop_settled a (sorted ds2) (State (fs stL) (banner a) 0 0) Live)
    as (E1 & E2 & ms2 & O2 & F2 & C2).
  { intros d I f C. apply (proj1 (in_sorted d ds2)) in I.
    apply (gather_trace _ _ _ _ _ _ _ W T1 G G2) in I.
    apply (proj2 (in_sorted d ds)) in I. apply (Settled d I f C). }
  simpl in *.
  assert (Idle0 : forall g, g <> SKIP -> g <> ERR -> count_tag g ms2 = 0).
  { intros g N1 N2. apply count_tag_none. eapply Forall_impl; [| exact F2].
    intros [] Im; simpl in *; try tauto; destruct g; auto; congruence. }
  assert (Err2 : forall f e, In (CouldNot f e) (out (dir_loop a (sorted ds2)
                   (State (fs stL) (banner a) 0 0)) ++ [SummaryLive 0]) ->
                 exists e', In (CouldNot f e') (out stL)).
  { intros f e I. rewrite O2 in I.
    apply in_app_or in I as [I | [I | []]]; [| discriminate].
    apply in_app_or in I as [I | I].
    - pose proof (banner_tags a) as B. rewrite Forall_forall in B.
      apply B in I. discriminate.
    - rewrite Forall_forall in F2. apply F2 in I. simpl in I.
      destruct I as (d & Id & C). apply (proj1 (in_sorted d ds2)) in Id.
      apply (gather_trace _ _ _ _ _ _ _ W T1 G G2) in Id.
      apply (proj2 (in_sorted d ds)) in Id. apply (Settled d Id f C). }
  eexists. unfold main. simpl. rewrite G2. split; [reflexivity |].
  simpl. unfold summary. rewrite Live. simpl. rewrite E1, E2, C2.
  split; [auto |]. split; [auto |].
  split.
  { rewrite O2, !count_tag_app, count_tag_banner, Idle0 by discriminate.
    reflexivity. }
  split; [auto |]. split.
  { intros f e I. destruct (Err2 f e I) as [e' I'].
    exists e'. apply in_or_app. auto. }
  split.
  { rewrite O2, !count_tag_app, count_tag_banner by discriminate.
    unfold count_tag. simpl. lia. }
  intros Z. apply count_tag_none. rewrite Forall_forall. intros m I.
  destruct (tag_eqb (tag_of m) ERR) eqn:Tm; auto. exfalso.
  destruct m; try discriminate.
  destruct (Err2 f e) as [e' I'].
  { rewrite O2. apply in_or_app. left. apply in_or_app. auto. }
  assert (Pos : count_tag ERR (out stL ++ [SummaryLive (total_deleted stL)]) > 0).
  { apply (count_tag_pos ERR (CouldNot f e')); auto. apply in_or_app. auto. }
  lia.
Qed.

Lemma C7_second_run_deletes_nothing_witness :
  wf tree_course = true /\
  dry_run (Args ["R"] false true false) = false /\
  exists st1,
    main (Args ["R"] false true false) tree_course = Completed st1 /\
    exists st2,
      main (Args ["R"] false true false) (fs st1) = Completed st2 /\
      fs st2 = fs st1 /\
      total_deleted st2 = 0 /\
      count_tag DEL (out st2) = 0 /\
      summary (Args ["R"] false true false) st2 = SummaryLive 0 /\
      (forall f e, In (CouldNot f e) (out st2) ->
                   exists e', In (CouldNot f e') (out st1)) /\
      total_candidates st2 = count_tag ERR (out st2) /\
      (count_tag ERR (out st1) = 0 -> total_candidates st2 = 0).
Proof.
  split; [reflexivity |]. split; [reflexivity |].
  eexists. split; [reflexivity |].
  apply (C7_second_run_deletes_nothing (Args ["R"] false true false)
           tree_course _ eq_refl eq_refl eq_refl).
Defined.

(** ** The text of the messages *)

(** Every message starts with its bracketed tag. *)
Lemma render_tag m : String.prefix (tag_str (tag_of m)) (render m) = true.
Proof. destruct m; reflexivity. Qed.

(** The mixed scenario: of [q1.tex], [q1_soln.tex], [q1_xm.tex] and
    [q2.tex] a live run deletes the two plain files and no other. *)
Example mixed_protection_run :
  map render (out (final (main (Args ["R"] false false false) tree_course)))
  = ["[INFO] Root: /R";
     "[DEL] Deleted: /R/A/questions/q1.tex";
     "[DEL] Deleted: /R/A/questions/q2.tex";
     "[SUMMARY] Deleted 2 plain qN.tex file(s)."] /\
  find_candidate_deletions
    (fs (final (main (Args ["R"] false false false) tree_course)))
    ["R"; "A"; "questions"] = [] /\
  glob (fun _ => true)
    (fs (final (main (Args ["R"] false false false) tree_course)))
    ["R"; "A"; "questions"]
  = [["R"; "A"; "questions"; "q1_soln.tex"];
     ["R"; "A"; "questions"; "q1_xm.tex"]].
Proof. repeat split. Qed.

(** Recursive against non-recursive scope, as a dry run shows it. *)
Example recursive_scope_run :
  map render (out (final (main (Args ["R"] true true true) tree_course)))
  = ["[DRY] Would delete: /R/A/questions/q1.tex";
     "[DRY] Would delete: /R/A/questions/q2.tex";
     "[DRY] Would delete: /R/A/B/questions/q2.tex";
     "[DRY] Would delete: /R/xmScripts/sub/questions/q9.tex";
     "[SUMMARY] 4 plain qN.tex file(s) would be deleted."] /\
  map render (out (final (main (Args ["R"] true false true) tree_course)))
  = ["[DRY] Would delete: /R/A/questions/q1.tex";
     "[DRY] Would delete: /R/A/questions/q2.tex";
     "[SUMMARY] 2 plain qN.tex file(s) would be deleted."].
Proof. repeat split. Qed.

(** A root that is not there: the non-recursive run aborts before it
    prints a summary, the recursive run finds nothing. *)
Example missing_root_run :
  main (Args ["nowhere"] false false true) tree_course
    = Aborted (State tree_course [] 0 0) ENOENT /\
  map render (out (final (main (Args ["nowhere"] false true true) tree_course)))
    = ["[SUMMARY] Deleted 0 plain qN.tex file(s)."].
Proof. repeat split. Qed.

(* ------------------------------------------------------------------ *)
(** * Further properties of the three functions *)

(** ** The names the two patterns accept *)

Lemma string_of_list_app (a b : list ascii) :
  string_of_list_ascii (a ++ b)
  = (string_of_list_ascii a ++ string_of_list_ascii b)%string.
Proof. induction a; simpl; congruence. Qed.

Lemma string_of_shape x (w : list ascii) :
  list_ascii_of_string x = w -> x = string_of_list_ascii w.
Proof. intros <-. symmetry. apply string_of_list_ascii_of_string. Qed.

Lemma tail_string tail :
  at_eol tail = true ->
  string_of_list_ascii tail = "" \/
  string_of_list_ascii tail = String newline "".
Proof. intros H. apply at_eol_cases in H as [-> | ->]; auto. Qed.

Lemma nonempty_string (ds : list ascii) : ds <> [] -> string_of_list_ascii ds <> "".
Proof. destruct ds; [congruence | discriminate]. Qed.

Lemma nonempty_list (ds : string) : ds <> "" -> list_ascii_of_string ds <> [].
Proof. destruct ds; [congruence | discriminate]. Qed.

Lemma append_nil_r (s : string) : (s ++ "")%string = s.
Proof. induction s; simpl; congruence. Qed.

Lemma append_assoc (a b c : string) :
  ((a ++ b) ++ c)%string = (a ++ b ++ c)%string.
Proof. induction a; simpl; congruence. Qed.

(** X1: [PLAIN_Q_REGEX.match] accepts exactly the names [q<digits>.tex]
    and those names followed by one newline; any run of one or more
    digits will do. *)
Theorem X1_plain_regex_language x :
  regex_match PLAIN_Q_REGEX x = true <->
  qn_tex x \/ exists y, qn_tex y /\ x = with_newline y.
Proof.
  rewrite plain_shape. split.
  - intros (ds & tail & N & D & He & E).
    assert (E' : x = ("q" ++ string_of_list_ascii ds ++ ".tex"
                      ++ string_of_list_ascii tail)%string).
    { apply string_of_shape in E. rewrite E.
      change ("q"%char :: ds ++ dot_tex ++ tail)
        with (["q"%char] ++ ds ++ dot_tex ++ tail).
      rewrite !string_of_list_app. reflexivity. }
    assert (Q : qn_tex ("q" ++ string_of_list_ascii ds ++ ".tex")).
    { exists (string_of_list_ascii ds).
      rewrite list_ascii_of_string_of_list_ascii.
      repeat split; auto using nonempty_string. }
    destruct (tail_string tail He) as [T | T]; rewrite T in E'.
    + left. rewrite E'. exact Q.
    + right. eexists. split; [exact Q |]. rewrite E'. unfold with_newline.
      simpl. rewrite append_assoc. reflexivity.
  - intros [(ds & N & D & ->) | (y & (ds & N & D & ->) & ->)].
    + exists (list_ascii_of_string ds), []. repeat split; auto using nonempty_list.
      simpl. rewrite list_ascii_app. reflexivity.
    + exists (list_ascii_of_string ds), [newline].
      split; [auto using nonempty_list |]. split; [auto |].
      split; [reflexivity |].
      unfold with_newline. simpl. rewrite !list_ascii_app. simpl.
      rewrite <- app_assoc. reflexivity.
Qed.

(** X2: [PROTECTED_REGEX.match] accepts exactly the names
    [q<digits>_xm.tex] and [q<digits>_soln.tex], and those names followed
    by one newline. *)
Theorem X2_protected_regex_language x :
  regex_match PROTECTED_REGEX x = true <->
  protected_name x \/ exists y, protected_name y /\ x = with_newline y.
Proof.
  rewrite protected_shape. split.
  - intros (ds & v & tail & N & D & Hv & He & E).
    assert (E' : x = ("q" ++ string_of_list_ascii ds ++ "_" ++ v ++ ".tex"
                      ++ string_of_list_ascii tail)%string).
    { apply string_of_shape in E. rewrite E.
      change ("q"%char :: ds ++ "_"%char :: list_ascii_of_string v
              ++ dot_tex ++ tail)
        with (["q"%char] ++ ds ++ ["_"%char] ++ list_ascii_of_string v
              ++ dot_tex ++ tail).
      rewrite !string_of_list_app, string_of_list_ascii_of_string.
      reflexivity. }
    assert (Q : protected_name
                  ("q" ++ string_of_list_ascii ds ++ "_" ++ v ++ ".tex")).
    { exists (string_of_list_ascii ds), v.
      rewrite list_ascii_of_string_of_list_ascii.
      repeat split; auto using nonempty_string. }
    destruct (tail_string tail He) as [T | T]; rewrite T in E'.
    + left. rewrite E'.
      replace (v ++ ".tex" ++ "")%string with (v ++ ".tex")%string by reflexivity.
      exact Q.
    + right. eexists. split; [exact Q |]. rewrite E'. unfold with_newline.
      simpl. rewrite !append_assoc. simpl. rewrite !append_assoc. reflexivity.
  - intros [(ds & v & N & D & Hv & ->) | (y & (ds & v & N & D & Hv & ->) & ->)].
    + exists (list_ascii_of_string ds), v, [].
      repeat split; auto using nonempty_list.
      simpl. rewrite list_ascii_app. simpl. rewrite list_ascii_app. reflexivity.
    + exists (list_ascii_of_string ds), v, [newline].
      split; [auto using nonempty_list |]. split; [auto |]. split; [auto |].
      split; [reflexivity |].
      unfold with_newline. simpl. rewrite !list_ascii_app. simpl.
      rewrite !list_ascii_app. simpl. rewrite <- !app_assoc. simpl.
      rewrite <- !app_assoc. reflexivity.
Qed.

(** ** What find_candidate_deletions returns, entry by entry *)

Lemma classify_entries qdir es :
  classify (map (fun e : string * node => qdir ++ [fst e])
              (filter (fun e => glob_q_tex (fst e)) es))
  = map (fun e => qdir ++ [fst e]) (filter is_plain_entry es).
Proof.
  unfold is_plain_entry.
  induction es as [| [x c] es IH]; simpl; auto.
  destruct (glob_q_tex x); simpl; auto.
  rewrite name_snoc.
  destruct (regex_match PLAIN_Q_REGEX x) eqn:P.
  - rewrite (plain_not_protected x P). simpl. f_equal. exact IH.
  - destruct (regex_match PROTECTED_REGEX x); exact IH.
Qed.

(** X3: [find_candidate_deletions] returns, in the order of enumeration
    and once for each entry, the paths of the entries of the directory
    that the glob [q*.tex] yields and [PLAIN_Q_REGEX] accepts; on a path
    that is a file or does not exist it returns the empty list. *)
Theorem X3_candidates_in_enumeration_order t qdir :
  find_candidate_deletions t qdir
  = match lookup t qdir with
    | Some (Dir _ es) =>
        map (fun e => qdir ++ [fst e]) (filter is_plain_entry es)
    | _ => []
    end.
Proof.
  unfold find_candidate_deletions, glob.
  destruct (lookup t qdir) as [[| w es] |]; auto.
  apply classify_entries.
Qed.

Lemma wf_lookup p : forall t c,
  wf t = true -> lookup t p = Some c -> wf c = true.
Proof.
  induction p as [| x p IH]; intros t c W L; simpl in L.
  - injection L as <-. auto.
  - destruct t as [| w es]; [discriminate |].
    destruct (assoc x es) as [d |] eqn:A; [| discriminate].
    apply (IH d c); auto. eapply wf_child; eauto.
Qed.

Lemma existsb_In x (xs : list string) :
  existsb (String.eqb x) xs = false -> ~ In x xs.
Proof.
  induction xs as [| y xs IH]; simpl; [tauto |].
  intros H [E | I]; apply orb_false_iff in H as [H1 H2].
  - subst. rewrite String.eqb_refl in H1. discriminate.
  - apply IH; auto.
Qed.

Lemma distinct_NoDup xs : distinct xs = true -> NoDup xs.
Proof.
  induction xs as [| x xs IH]; simpl; intros D; constructor;
    apply andb_true_iff in D as [N D]; auto.
  apply existsb_In. apply negb_true_iff. auto.
Qed.

(** Distinct names give distinct paths. *)
Lemma children_NoDup (p : path) (xs : list string) :
  NoDup xs -> NoDup (map (fun x => p ++ [x]) xs).
Proof.
  induction 1 as [| x xs N D IH]; simpl; constructor; auto.
  intros I. apply in_map_iff in I as (y & E & I).
  apply app_inv_head in E. injection E as ->. auto.
Qed.

Lemma NoDup_filter_names (P : string * node -> bool) es :
  NoDup (map fst es) -> NoDup (map fst (filter P es)).
Proof.
  induction es as [| e es IH]; simpl; intros N; auto.
  inversion N as [| x xs Nx Nxs]; subst.
  destruct (P e); simpl; auto. constructor; auto.
  intros I. apply Nx. apply in_map_iff in I as (e' & E & I).
  apply filter_In in I as [I _]. apply in_map_iff. eauto.
Qed.

(** X4: in a tree whose directories have distinct entry names
    [find_candidate_deletions] returns no path twice. *)
Theorem X4_candidates_distinct t qdir :
  wf t = true -> NoDup (find_candidate_deletions t qdir).
Proof.
  intros W. unfold find_candidate_deletions, glob.
  destruct (lookup t qdir) as [[| w es] |] eqn:L; try constructor.
  rewrite classify_entries.
  pose proof (wf_lookup qdir t _ W L) as Wd. simpl in Wd.
  apply andb_true_iff in Wd as [D _]. apply distinct_NoDup in D.
  rewrite <- (map_map fst (fun x => qdir ++ [x])).
  apply children_NoDup. apply NoDup_filter_names. auto.
Qed.

Lemma X4_candidates_distinct_witness :
  wf tree_course = true /\
  NoDup (find_candidate_deletions tree_course ["R"; "A"; "questions"]).
Proof.
  split; [reflexivity |].
  apply (X4_candidates_distinct tree_course ["R"; "A"; "questions"] eq_refl).
Defined.

(** ** More about gather_target_dirs *)

Lemma walk_NoDup t : forall p, wf t = true -> NoDup (walk t p).
Proof.
  induction t as [| w es IH] using node_induction; intros p W; simpl;
    [constructor |].
  simpl in W. apply andb_true_iff in W as [D F].
  apply NoDup_app.
  - rewrite <- (map_map fst (fun x => p ++ [x])).
    apply children_NoDup, distinct_NoDup. auto.
  - clear w. induction es as [| [x c] es IHes]; simpl; [constructor |].
    simpl in D, F. apply andb_true_iff in D as [Nx D].
    apply andb_true_iff in F as [Wc F].
    inversion IH as [| e l Hc Hl]; subst. simpl in Hc.
    apply NoDup_app; auto.
    intros q I1 I2. apply walk_below in I1 as (r1 & _ & ->).
    apply in_flat_map in I2 as ([y c'] & Iy & I2). simpl in I2.
    apply walk_below in I2 as (r2 & _ & E).
    rewrite <- !app_assoc in E. apply app_inv_head in E. simpl in E.
    injection E as -> _.
    apply negb_true_iff in Nx. apply existsb_In in Nx. apply Nx.
    apply in_map_iff. exists (y, c'). auto.
  - intros q I1 I2. apply in_map_iff in I1 as (e & <- & _).
    apply in_flat_map in I2 as (e' & _ & I2).
    apply walk_below in I2 as (r & N & E).
    rewrite <- app_assoc in E. apply app_inv_head in E. simpl in E.
    injection E as _ E. symmetry in E. auto.
Qed.

Lemma gather_NoDup t r rc ds :
  wf t = true -> gather_target_dirs t r rc = inl ds -> NoDup ds.
Proof.
  intros W. unfold gather_target_dirs, rglob_star, iterdir.
  destruct rc.
  - intros E. injection E as <-. apply NoDup_filter, NoDup_filter.
    destruct (lookup t r) as [c |] eqn:L; [| constructor].
    apply walk_NoDup. eapply wf_lookup; eauto.
  - destruct (lookup t r) as [[| w es] |] eqn:L; try discriminate.
    intros E. injection E as <-. apply NoDup_filter, NoDup_filter.
    pose proof (wf_lookup r t _ W L) as Wd. simpl in Wd.
    apply andb_true_iff in Wd as [D _].
    rewrite <- (map_map fst (fun x => r ++ [x])).
    apply children_NoDup, distinct_NoDup. auto.
Qed.

(** X5: in a tree whose directories have distinct entry names
    [gather_target_dirs] returns no directory twice, in either mode. *)
Theorem X5_target_dirs_distinct t r rc ds :
  wf t = true -> gather_target_dirs t r rc = inl ds -> NoDup ds.
Proof. apply gather_NoDup. Qed.

Lemma X5_target_dirs_distinct_witness :
  wf tree_course = true /\
  gather_target_dirs tree_course ["R"] true
    = inl [["R"; "A"]; ["R"; "questions"]; ["R"; "A"; "questions"];
           ["R"; "A"; "B"]; ["R"; "A"; "B"; "questions"];
           ["R"; "xmScripts"; "sub"]; ["R"; "xmScripts"; "sub"; "questions"]] /\
  NoDup [["R"; "A"]; ["R"; "questions"]; ["R"; "A"; "questions"];
         ["R"; "A"; "B"]; ["R"; "A"; "B"; "questions"];
         ["R"; "xmScripts"; "sub"]; ["R"; "xmScripts"; "sub"; "questions"]].
Proof.
  split; [reflexivity |]. split; [reflexivity |].
  apply (X5_target_dirs_distinct tree_course ["R"] true _ eq_refl eq_refl).
Defined.

(** X6: whatever a non-recursive call of [gather_target_dirs] returns,
    the recursive call on the same root returns too. *)
Theorem X6_recursive_covers_flat t r ds :
  gather_target_dirs t r false = inl ds ->
  exists ds',
    gather_target_dirs t r true = inl ds' /\
    forall d, In d ds -> In d ds'.
Proof.
  intros G. destruct (gather_deep_total t r) as [ds' G'].
  exists ds'. split; auto. intros d I.
  apply (in_gather_flat t r ds d G) in I as (x & -> & D & N).
  apply (in_gather_deep t r ds' _ G'). exists [x].
  rewrite name_snoc. repeat split; auto. discriminate.
Qed.

Lemma X6_recursive_covers_flat_witness :
  gather_target_dirs tree_course ["R"] false
    = inl [["R"; "A"]; ["R"; "questions"]] /\
  exists ds',
    gather_target_dirs tree_course ["R"] true = inl ds' /\
    forall d, In d [["R"; "A"]; ["R"; "questions"]] -> In d ds'.
Proof.
  split; [reflexivity |].
  apply (X6_recursive_covers_flat tree_course ["R"] _ eq_refl).
Defined.



(** ** How a run ends on a root that is not a directory *)



(** ** What a run keeps and what it removes *)

Lemma name_in_questions d x : name (d ++ ["questions"; x]) = x.
Proof.
  change (d ++ ["questions"; x]) with (d ++ ["questions"] ++ [x]).
  rewrite app_assoc. apply name_snoc.
Qed.

Lemma main_completed a t st :
  main a t = Completed st ->
  exists ds, gather_target_dirs t (root a) (recursive a) = inl ds.
Proof.
  unfold main.
  destruct (gather_target_dirs t (root a) (recursive a)); [eauto | discriminate].
Qed.

Lemma stat_eq_dec (a b : option kind) : {a = b} + {a <> b}.
Proof. repeat decide equality. Qed.

(** A path a run changes was a file named [q<digits>.tex]. *)
Lemma main_changes a t st f :
  wf t = true -> main a t = Completed st ->
  stat (fs st) f <> stat t f ->
  stat t f = Some KFile /\ stat (fs st) f = None /\ qn_tex (name f).
Proof.
  intros W M Ne. destruct (main_completed a t st M) as [ds G].
  destruct (main_log a t ds G)
    as (st' & ms & cands & M' & O & T & A & D & C & F & S).
  rewrite M in M'. injection M' as <-.
  destruct (trace_stat _ _ _ W T f) as [E | (E1 & E2 & I)]; [congruence |].
  repeat split; auto.
  assert (Ic : In f cands).
  { apply (answers_deleted a cands (filter is_action ms)); auto.
    apply filter_In. auto. }
  destruct (S f Ic) as (d & x & _ & -> & Q). rewrite name_in_questions. auto.
Qed.

(** X9: a completed run over a tree with distinct entry names never
    removes or changes anything whose name is not [q<digits>.tex]: in
    particular every file with a protected name [q<digits>_xm.tex] or
    [q<digits>_soln.tex] is kept, no directory is removed or created, and
    the tree still has distinct entry names. *)
Theorem X9_run_keeps_everything_else a t st :
  wf t = true ->
  main a t = Completed st ->
  (forall f, ~ qn_tex (name f) -> stat (fs st) f = stat t f) /\
  (forall f, regex_match PROTECTED_REGEX (name f) = true ->
             stat (fs st) f = stat t f) /\
  (forall p, is_dir (fs st) p = is_dir t p) /\
  wf (fs st) = true.
Proof.
  intros W M.
  assert (K : forall f, ~ qn_tex (name f) -> stat (fs st) f = stat t f).
  { intros f N.
    destruct (stat_eq_dec (stat (fs st) f) (stat t f)) as [E | Ne]; auto.
    destruct (main_changes a t st f W M Ne) as (_ & _ & Q). contradiction. }
  destruct (main_completed a t st M) as [ds G].
  destruct (main_log a t ds G) as (st' & ms & cands & M' & O & T & _).
  rewrite M in M'. injection M' as <-.
  split; [exact K |]. split; [| split].
  - intros f P. apply K. intros Q. apply qn_tex_iff in Q as [_ Q].
    rewrite (plain_not_protected _ Q) in P. discriminate.
  - intros p. eapply trace_is_dir; eauto.
  - eapply trace_wf; eauto.
Qed.

Lemma X9_run_keeps_everything_else_witness :
  wf tree_course = true /\
  (exists st,
     main (Args ["R"] false true false) tree_course = Completed st /\
     stat (fs st) ["R"; "A"; "questions"; "q1_soln.tex"] = Some KFile /\
     stat (fs st) ["R"; "A"; "questions"; "q1.tex"] = None).
Proof.
  split; [reflexivity |].
  eexists. split; [reflexivity |].
  split; [| reflexivity].
  rewrite (proj1 (proj2 (X9_run_keeps_everything_else
                           (Args ["R"] false true false) tree_course _
                           eq_refl eq_refl))
             ["R"; "A"; "questions"; "q1_soln.tex"] eq_refl).
  reflexivity.
Defined.

(** An existing file in a writable directory can be unlinked. *)
Lemma unlink_succeeds p : forall t x,
  stat t p = Some (KDir true) -> stat t (p ++ [x]) = Some KFile ->
  exists t', unlink t (p ++ [x]) = inl t'.
Proof.
  unfold stat. induction p as [| y p IH]; intros t x Sp Sf; simpl in *.
  - destruct t as [| w es]; [discriminate |]. injection Sp as ->.
    destruct (assoc x es) as [[| w' es'] |]; try discriminate. simpl. eauto.
  - destruct t as [| w es]; [discriminate |].
    destruct (assoc y es) as [c |]; [| discriminate].
    destruct (IH c x Sp Sf) as [c' U]. rewrite U.
    destruct (p ++ [x]) eqn:E; [destruct p; discriminate | eauto].
Qed.

(** X10: after a live run over a tree with distinct entry names, no
    file named [q<digits>.tex] is left in the [questions] folder of a
    listed directory when that folder is writable; what is left under
    such a name there is a directory. *)
Theorem X10_live_run_removes_every_plain_file a t ds st :
  wf t = true ->
  dry_run a = false ->
  gather_target_dirs t (root a) (recursive a) = inl ds ->
  main a t = Completed st ->
  forall d x,
    In d ds -> qn_tex x ->
    stat t (d ++ ["questions"]) = Some (KDir true) ->
    stat (fs st) (d ++ ["questions"; x]) <> Some KFile.
Proof.
  intros W Live G M d x I Q Dq Sf.
  unfold main in M. rewrite G in M. injection M as <-. simpl in Sf.
  set (stL := dir_loop a (sorted ds) (State t (banner a) 0 0)) in *.
  destruct (dir_loop_log a (sorted ds) (State t (banner a) 0 0))
    as (ms & cands & _ & T & _).
  fold stL in T. simpl in T.
  assert (Dq' : stat (fs stL) (d ++ ["questions"]) = Some (KDir true)).
  { destruct (trace_stat _ _ _ W T (d ++ ["questions"])) as [E | (E & _)];
      congruence. }
  change (d ++ ["questions"; x]) with (d ++ ["questions"] ++ [x]) in Sf.
  rewrite app_assoc in Sf.
  destruct (unlink_succeeds _ _ x Dq' Sf) as [t' U].
  destruct (dir_loop_settles a (sorted ds) (State t (banner a) 0 0) W Live d
              (proj2 (in_sorted d ds) I) ((d ++ ["questions"]) ++ [x]))
    as [[e Ff] _].
  - apply in_candidates_stat. exists x. repeat split; auto.
    + rewrite is_dir_stat. fold stL. rewrite Dq'. auto.
    + fold stL. rewrite Sf. discriminate.
  - fold stL in Ff. congruence.
Qed.

Lemma X10_live_run_removes_every_plain_file_witness :
  wf tree_course = true /\
  dry_run (Args ["R"] false false true) = false /\
  gather_target_dirs tree_course ["R"] false
    = inl [["R"; "A"]; ["R"; "questions"]] /\
  exists st,
    main (Args ["R"] false false true) tree_course = Completed st /\
    stat (fs st) (["R"; "A"] ++ ["questions"; "q2.tex"]) <> Some KFile.
Proof.
  split; [reflexivity |]. split; [reflexivity |]. split; [reflexivity |].
  eexists. split; [reflexivity |].
  apply (X10_live_run_removes_every_plain_file
           (Args ["R"] false false true) tree_course
           [["R"; "A"]; ["R"; "questions"]] _ eq_refl eq_refl eq_refl eq_refl
           ["R"; "A"] "q2.tex").
  - simpl. auto.
  - exists "2". repeat split. discriminate.
  - reflexivity.
Defined.

(** ** What a dry run prints *)

Lemma delete_loop_dry_out a cs : forall st,
  dry_run a = true ->
  delete_loop a cs st
  = State (fs st) (out st ++ map DryWould cs)
      (total_deleted st) (total_candidates st).
Proof.
  induction cs as [| f cs IH]; intros st Dry; simpl.
  - rewrite app_nil_r. destruct st; reflexivity.
  - rewrite Dry, (IH _ Dry). simpl. rewrite <- app_assoc. reflexivity.
Qed.

Lemma dir_loop_dry_out a ds : forall st,
  dry_run a = true ->
  dir_loop a ds st
  = State (fs st) (out st ++ flat_map (dry_report (quiet a) (fs st)) ds)
      (total_deleted st)
      (total_candidates st + List.length (all_candidates (fs st) ds)).
Proof.
  induction ds as [| d ds IH]; intros st Dry; simpl.
  - rewrite app_nil_r, Nat.add_0_r. destruct st; reflexivity.
  - unfold dry_report at 1. rewrite length_app.
    destruct (is_dir (fs st) (d ++ ["questions"])) eqn:Q; simpl.
    + destruct (find_candidate_deletions (fs st) (d ++ ["questions"]))
        as [| f cs] eqn:C; simpl.
      * destruct (quiet a); simpl; rewrite (IH _ Dry); simpl;
          rewrite ?Nat.add_0_r, <- ?app_assoc; reflexivity.
      * rewrite Dry, delete_loop_dry_out, (IH _ Dry) by auto. simpl.
        rewrite <- !app_assoc. simpl. f_equal. lia.
    + rewrite (candidates_not_dir _ _ Q), (IH _ Dry). reflexivity.
Qed.

Lemma main_dry_out a t ds :
  dry_run a = true ->
  gather_target_dirs t (root a) (recursive a) = inl ds ->
  main a t
  = Completed
      (State t
         (banner a ++ flat_map (dry_report (quiet a) t) (sorted ds)
          ++ [SummaryDry (List.length (all_candidates t (sorted ds)))])
         0 (List.length (all_candidates t (sorted ds)))).
Proof.
  intros Dry G. unfold main. rewrite G.
  rewrite (dir_loop_dry_out a (sorted ds) _ Dry). simpl.
  unfold print, summary. simpl. rewrite Dry, <- app_assoc. reflexivity.
Qed.

(** X11: the whole result of a dry run that gets its directories [ds]:
    after the banner, for each directory in sorted order that has a
    [questions] folder, one [DRY] line per candidate in the order of
    enumeration, or one [SKIP] line if there is none and the run is not
    quiet; then the summary with the number of candidates.  The tree is
    the one it started from and nothing is counted as deleted. *)
Theorem X11_dry_run_output a t ds :
  dry_run a = true ->
  gather_target_dirs t (root a) (recursive a) = inl ds ->
  main a t
  = Completed
      (State t
         (banner a ++ flat_map (dry_report (quiet a) t) (sorted ds)
          ++ [SummaryDry (List.length (all_candidates t (sorted ds)))])
         0 (List.length (all_candidates t (sorted ds)))).
Proof. apply main_dry_out. Qed.

Lemma X11_dry_run_output_witness :
  dry_run (Args ["R"] true false false) = true /\
  gather_target_dirs tree_stubborn (root (Args ["R"] true false false))
    (recursive (Args ["R"] true false false))
    = inl [["R"; "A"]; ["R"; "B"]] /\
  out (final (main (Args ["R"] true false false) tree_stubborn))
  = [InfoRoot ["R"]; InfoDryRun;
     DryWould ["R"; "A"; "questions"; "q1.tex"];
     DryWould ["R"; "B"; "questions"; "q7.tex"];
     SummaryDry 2].
Proof.
  split; [reflexivity |]. split; [reflexivity |].
  rewrite (X11_dry_run_output (Args ["R"] true false false) tree_stubborn
             [["R"; "A"]; ["R"; "B"]] eq_refl eq_refl).
  reflexivity.
Defined.

(** ** What --quiet changes *)

(** Two states that differ only by the silenced messages. *)
Lemma delete_loop_loud a1 a2 cs : forall st1 st2,
  dry_run a1 = dry_run a2 ->
  fs st1 = fs st2 -> total_deleted st1 = total_deleted st2 ->
  total_candidates st1 = total_candidates st2 ->
  out st1 = filter loud (out st2) ->
  fs (delete_loop a1 cs st1) = fs (delete_loop a2 cs st2) /\
  total_deleted (delete_loop a1 cs st1) = total_deleted (delete_loop a2 cs st2) /\
  total_candidates (delete_loop a1 cs st1)
    = total_candidates (delete_loop a2 cs st2) /\
  out (delete_loop a1 cs st1) = filter loud (out (delete_loop a2 cs st2)).
Proof.
  induction cs as [| f cs IH]; intros st1 st2 Dry F D C O; simpl; auto.
  rewrite <- Dry, <- F. destruct (dry_run a1).
  - apply IH; simpl; auto. rewrite filter_app, O. reflexivity.
  - destruct (unlink (fs st1) f) as [t' | e].
    + apply IH; simpl; auto. rewrite filter_app, O. reflexivity.
    + apply IH; simpl; auto. rewrite filter_app, O. reflexivity.
Qed.

Lemma dir_loop_loud a1 a2 ds : forall st1 st2,
  dry_run a1 = dry_run a2 -> quiet a1 = true ->
  fs st1 = fs st2 -> total_deleted st1 = total_deleted st2 ->
  total_candidates st1 = total_candidates st2 ->
  out st1 = filter loud (out st2) ->
  fs (dir_loop a1 ds st1) = fs (dir_loop a2 ds st2) /\
  total_deleted (dir_loop a1 ds st1) = total_deleted (dir_loop a2 ds st2) /\
  total_candidates (dir_loop a1 ds st1)
    = total_candidates (dir_loop a2 ds st2) /\
  out (dir_loop a1 ds st1) = filter loud (out (dir_loop a2 ds st2)).
Proof.
  induction ds as [| d ds IH]; intros st1 st2 Dry Q F D C O; simpl; auto.
  rewrite <- F, Q.
  destruct (is_dir (fs st1) (d ++ ["questions"])); simpl; [| apply IH; auto].
  rewrite andb_false_r.
  destruct (find_candidate_deletions (fs st1) (d ++ ["questions"]))
    as [| f cs] eqn:E.
  - destruct (quiet a2); simpl.
    + apply IH; simpl; auto.
    + apply IH; simpl; auto. rewrite filter_app, O. simpl.
      rewrite app_nil_r. reflexivity.
  - rewrite andb_false_l.
    match goal with
    | |- context [dir_loop a1 ds (delete_loop a1 ?c ?s1)] =>
        match goal with
        | |- context [dir_loop a2 ds (delete_loop a2 c ?s2)] =>
            pose proof (delete_loop_loud a1 a2 c s1 s2 Dry) as H
        end
    end.
    destruct H as (F' & D' & C' & O');
      [simpl; auto | simpl; auto | simpl; lia | simpl; auto |].
    apply IH; auto.
Qed.

(** X12: [--quiet] changes nothing but the output, and of the output
    only the [INFO] and [SKIP] lines: the quiet run leaves the same tree
    and the same counts as the run without [--quiet], and prints exactly
    the other lines of that run, in the same order. *)
Theorem X12_quiet_only_drops_info_and_skip r dry rc t :
  fs (final (main (Args r dry rc true) t))
    = fs (final (main (Args r dry rc false) t)) /\
  total_deleted (final (main (Args r dry rc true) t))
    = total_deleted (final (main (Args r dry rc false) t)) /\
  total_candidates (final (main (Args r dry rc true) t))
    = total_candidates (final (main (Args r dry rc false) t)) /\
  out (final (main (Args r dry rc true) t))
    = filter loud (out (final (main (Args r dry rc false) t))).
Proof.
  unfold main. simpl.
  destruct (gather_target_dirs t r rc) as [ds | e]; simpl.
  - destruct (dir_loop_loud (Args r dry rc true) (Args r dry rc false)
                (sorted ds)
                (State t (banner (Args r dry rc true)) 0 0)
                (State t (banner (Args r dry rc false)) 0 0))
      as (F & D & C & O); auto.
    { unfold banner. simpl. destruct rc, dry; reflexivity. }
    repeat split; auto.
    rewrite filter_app, O. unfold summary. simpl. rewrite D, C.
    destruct dry; reflexivity.
  - repeat split; auto. unfold banner. simpl. destruct rc, dry; reflexivity.
Qed.

(** ** A dry run shows what the live run will try *)

Lemma glob_names pat t p :
  glob pat t p
  = match names t p with
    | Some ns => map (fun x => p ++ [x]) (filter pat ns)
    | None => []
    end.
Proof.
  unfold glob, names. destruct (lookup t p) as [[| w es] |]; auto.
  induction es as [| [x c] es IH]; simpl; auto.
  destruct (pat x); simpl; congruence.
Qed.

Lemma candidates_names t t' p :
  names t' p = names t p ->
  find_candidate_deletions t' p = find_candidate_deletions t p.
Proof.
  intros E. unfold find_candidate_deletions. rewrite !glob_names, E. auto.
Qed.

(** Unlinking [g] changes the listing of the parent of [g] only. *)
Lemma names_unlink g : forall t t' p,
  wf t = true -> unlink t g = inl t' ->
  (forall x, g <> p ++ [x]) -> names t' p = names t p.
Proof.
  induction g as [| y g IH]; intros t t' p W U Np; [discriminate |].
  pose proof (unlink_inv _ _ _ U) as (w & es & y0 & g' & c & -> & E & A & H).
  injection E as <- <-. clear U.
  pose proof (wf_child _ _ _ _ W A) as Wc.
  simpl in W. apply andb_true_iff in W as [D F].
  unfold names. destruct p as [| x p]; simpl.
  - destruct H as [(-> & _) | (_ & c' & _ & ->)].
    + destruct (Np y). reflexivity.
    + rewrite names_replace. reflexivity.
  - destruct H as [(-> & -> & -> & ->) | (N & c' & Uc & ->)].
    + destruct (String.eqb_spec x y) as [-> | Ne].
      * rewrite assoc_remove_same, A by auto. destruct p; reflexivity.
      * rewrite assoc_remove_other by auto. reflexivity.
    + destruct (String.eqb_spec x y) as [-> | Ne].
      * rewrite (assoc_replace_same _ _ _ _ A), A.
        apply (IH c c' p Wc Uc). intros x E. apply (Np x). simpl. congruence.
      * rewrite assoc_replace_other by auto. reflexivity.
Qed.

Lemma trace_names t ms t' p :
  wf t = true -> trace t ms t' ->
  (forall f x, In (Deleted f) ms -> f <> p ++ [x]) ->
  names t' p = names t p.
Proof.
  intros W T.
  induction T as [t | t g t' ms t'' U T IH | t g e ms t' U T IH
                 | t m ms t' R T IH]; intros H; auto.
  - rewrite IH.
    + apply (names_unlink g t t' p W U). intros x. apply H. left. auto.
    + eapply wf_unlink; eauto.
    + intros f x I. apply H. right. auto.
  - apply IH; auto. intros f x I. apply H. right. auto.
  - apply IH; auto. intros f x I. apply H. right. auto.
Qed.

Lemma all_candidates_ext t t' ds :
  (forall d, In d ds ->
     find_candidate_deletions t' (d ++ ["questions"])
     = find_candidate_deletions t (d ++ ["questions"])) ->
  all_candidates t' ds = all_candidates t ds.
Proof.
  unfold all_candidates. induction ds as [| d ds IH]; simpl; intros H; auto.
  rewrite (H d), IH; auto.
Qed.

(** In live mode, over distinct directories, the candidates considered
    are those the tree held at the start. *)
Lemma dir_loop_live_cands a ds : forall st,
  wf (fs st) = true -> dry_run a = false -> NoDup ds ->
  exists ms,
    out (dir_loop a ds st) = out st ++ ms /\
    Forall2 answered_live (all_candidates (fs st) ds) (filter is_action ms) /\
    total_candidates (dir_loop a ds st)
      = total_candidates st + List.length (all_candidates (fs st) ds).
Proof.
  induction ds as [| d ds IH]; intros st W Live N; simpl.
  - exists []. rewrite app_nil_r. simpl. repeat split; auto using Forall2_nil.
  - inversion N as [| d0 ds0 Nd Nds]; subst.
    destruct (is_dir (fs st) (d ++ ["questions"])) eqn:Q; simpl.
    + set (cs := find_candidate_deletions (fs st) (d ++ ["questions"])).
      set (st0 := State (fs st) (out st) (total_deleted st)
                    (total_candidates st + List.length cs)).
      destruct (match cs with [] => true | _ :: _ => false end && negb (quiet a))
        eqn:Empty.
      * destruct (IH (print (SkipEmpty (d ++ ["questions"])) st0) W Live Nds)
          as (ms & O & F & C).
        apply andb_true_iff in Empty as [E _].
        assert (cs = []) as Ecs by (destruct cs; [auto | discriminate]).
        exists (SkipEmpty (d ++ ["questions"]) :: ms).
        rewrite O, C, Ecs. simpl. rewrite <- app_assoc.
        assert (L0 : List.length cs = 0) by (rewrite Ecs; reflexivity).
        split; [reflexivity |]. split; [exact F | lia].
      * destruct (delete_loop_log a cs st0) as (ms1 & O1 & T1 & A1 & D1 & C1).
        simpl in T1.
        assert (W1 : wf (fs (delete_loop a cs st0)) = true)
          by (eapply trace_wf; eauto).
        assert (Same : all_candidates (fs (delete_loop a cs st0)) ds
                       = all_candidates (fs st) ds).
        { apply all_candidates_ext. intros d' I. apply candidates_names.
          apply (trace_names _ _ _ _ W T1). intros f x Id E.
          apply (answers_deleted a cs ms1 f A1) in Id.
          apply in_candidates_stat in Id as (x' & -> & _).
          apply app_inj_tail in E as [E _]. apply app_inj_tail in E as [-> _].
          auto. }
        destruct (IH (delete_loop a cs st0) W1 Live Nds) as (ms & O & F & C).
        rewrite Same in F, C.
        exists (ms1 ++ ms). rewrite O, O1, C, C1. simpl.
        rewrite app_assoc, filter_app, (answers_actions _ _ _ A1), length_app.
        split; [reflexivity |]. split; [| lia].
        apply Forall2_app; auto.
        eapply Forall2_impl; [| exact A1]. intros f m. unfold answers.
        rewrite Live. auto.
    + rewrite (candidates_not_dir _ _ Q). simpl. apply IH; auto.
Qed.

Lemma NoDup_insert p l : ~ In p l -> NoDup l -> NoDup (insert p l).
Proof.
  induction l as [| q l IH]; simpl; intros Ni N.
  - constructor; auto.
  - inversion N as [| q0 l0 Nq Nl]; subst.
    destruct (path_ltb q p).
    + constructor.
      * rewrite in_insert. intros [E | I]; [apply Ni; auto | auto].
      * apply IH; auto.
    + constructor; auto.
Qed.

Lemma NoDup_sorted l : NoDup l -> NoDup (sorted l).
Proof.
  induction 1 as [| p l Ni N IH]; simpl; [constructor |].
  apply NoDup_insert; auto. rewrite in_sorted. auto.
Qed.

Lemma dry_report_actions q t ds :
  filter is_action (flat_map (dry_report q t) ds)
  = map DryWould (all_candidates t ds).
Proof.
  unfold all_candidates.
  induction ds as [| d ds IH]; simpl; auto.
  rewrite filter_app, map_app, IH. f_equal. unfold dry_report.
  destruct (is_dir t (d ++ ["questions"])) eqn:Q;
    [| rewrite (candidates_not_dir _ _ Q); reflexivity].
  destruct (find_candidate_deletions t (d ++ ["questions"])) as [| f cs].
  - destruct q; reflexivity.
  - generalize (f :: cs). intros l. induction l; simpl; congruence.
Qed.

Lemma filter_banner a : filter is_action (banner a) = [].
Proof.
  unfold banner. destruct (quiet a), (recursive a), (dry_run a); reflexivity.
Qed.

Lemma dry_previews_live r rc q1 q2 t stD stL :
  wf t = true ->
  main (Args r true rc q1) t = Completed stD ->
  main (Args r false rc q2) t = Completed stL ->
  total_candidates stL = total_candidates stD /\
  Forall2 previews (filter is_action (out stD)) (filter is_action (out stL)).
Proof.
  intros W MD ML.
  destruct (main_completed _ _ _ MD) as [ds G]. simpl in G.
  rewrite (main_dry_out (Args r true rc q1) t ds eq_refl G) in MD.
  injection MD as <-. simpl.
  unfold main in ML. simpl in ML. rewrite G in ML. injection ML as <-.
  destruct (dir_loop_live_cands (Args r false rc q2) (sorted ds)
              (State t (banner (Args r false rc q2)) 0 0) W eq_refl)
    as (ms & O & F & C).
  { apply NoDup_sorted. eapply (gather_NoDup t r rc ds); eauto. }
  simpl in *. rewrite O, C. split; [reflexivity |].
  rewrite !filter_app, !filter_banner, dry_report_actions. simpl.
  rewrite app_nil_r.
  unfold summary. simpl. rewrite app_nil_r.
  clear - F. induction F as [| f m cs ms' A F IH]; simpl; constructor; auto.
  exists f. auto.
Qed.

(** X13: over a tree with distinct entry names the dry run lists
    exactly the files the live run tries to delete: line by line, each
    [DRY] message of the dry run names the file of the corresponding
    [DEL] or [ERR] message of the live run, and both runs count the same
    number of candidates. *)
Theorem X13_dry_run_previews_live_run r rc q1 q2 t stD stL :
  wf t = true ->
  main (Args r true rc q1) t = Completed stD ->
  main (Args r false rc q2) t = Completed stL ->
  total_candidates stL = total_candidates stD /\
  Forall2 previews (filter is_action (out stD)) (filter is_action (out stL)).
Proof. apply dry_previews_live. Qed.

Lemma X13_dry_run_previews_live_run_witness :
  wf tree_stubborn = true /\
  exists stD stL,
    main (Args ["R"] true false false) tree_stubborn = Completed stD /\
    main (Args ["R"] false false true) tree_stubborn = Completed stL /\
    total_candidates stL = total_candidates stD /\
    Forall2 previews (filter is_action (out stD)) (filter is_action (out stL)).
Proof.
  split; [reflexivity |]. eexists _, _.
  split; [reflexivity |]. split; [reflexivity |].
  apply (X13_dry_run_previews_live_run ["R"] false false true tree_stubborn
           _ _ eq_refl eq_refl eq_refl).
Defined.

(** ** The order in which main visits the directories *)

Lemma compare_lt_trans x y z :
  String.compare x y = Lt -> String.compare y z = Lt -> String.compare x z = Lt.
Proof.
  intros H1 H2. apply String_as_OT.cmp_lt. apply String_as_OT.cmp_lt in H1, H2.
  eapply String_as_OT.lt_trans; eauto.
Qed.

Lemma compare_eq x y : String.compare x y = Eq -> x = y.
Proof. apply String_as_OT.cmp_eq. Qed.

Lemma compare_refl x : String.compare x x = Eq.
Proof. apply String_as_OT.cmp_eq. reflexivity. Qed.

Lemma path_ltb_irrefl p : path_ltb p p = false.
Proof. induction p as [| x p IH]; simpl; auto. rewrite compare_refl. auto. Qed.

Lemma path_ltb_trans p : forall q r,
  path_ltb p q = true -> path_ltb q r = true -> path_ltb p r = true.
Proof.
  induction p as [| x p IH]; intros [| y q] [| z r]; simpl; auto;
    try discriminate.
  destruct (String.compare x y) eqn:C1; try discriminate;
    destruct (String.compare y z) eqn:C2; try discriminate; intros H1 H2.
  - apply compare_eq in C1, C2. subst. rewrite compare_refl. eauto.
  - apply compare_eq in C1. subst. rewrite C2. auto.
  - apply compare_eq in C2. subst. rewrite C1. auto.
  - rewrite (compare_lt_trans _ _ _ C1 C2). auto.
Qed.

Lemma path_ltb_total p : forall q,
  path_ltb p q = false -> path_ltb q p = false -> p = q.
Proof.
  induction p as [| x p IH]; intros [| y q]; simpl; auto; try discriminate.
  pose proof (String_as_OT.cmp_antisym y x) as A.
  unfold String_as_OT.cmp in A. rewrite A.
  destruct (String.compare x y) eqn:C; simpl; try discriminate.
  intros H1 H2. apply compare_eq in C. subst. f_equal. auto.
Qed.

Lemma path_ltb_asym p q : path_ltb p q = true -> path_ltb q p = false.
Proof.
  intros H. destruct (path_ltb q p) eqn:E; auto.
  rewrite <- (path_ltb_irrefl p). symmetry. eapply path_ltb_trans; eauto.
Qed.

Lemma path_leb_trans p q r :
  path_leb p q = true -> path_leb q r = true -> path_leb p r = true.
Proof.
  unfold path_leb. rewrite !negb_true_iff. intros H1 H2.
  destruct (path_ltb r p) eqn:E; auto.
  destruct (path_ltb p q) eqn:E1.
  - rewrite (path_ltb_trans _ _ _ E E1) in H2. discriminate.
  - pose proof (path_ltb_total _ _ E1 H1). subst. congruence.
Qed.

Lemma insert_perm p l : Permutation (insert p l) (p :: l).
Proof.
  induction l as [| q l IH]; simpl; auto.
  destruct (path_ltb q p); auto.
  rewrite IH. apply perm_swap.
Qed.

Lemma insert_sorted p l :
  StronglySorted (fun a b => path_leb a b = true) l ->
  StronglySorted (fun a b => path_leb a b = true) (insert p l).
Proof.
  induction 1 as [| q l S IH F]; simpl.
  - repeat constructor.
  - destruct (path_ltb q p) eqn:E.
    + constructor; auto. rewrite Forall_forall in *. intros d I.
      apply in_insert in I as [-> | I]; auto.
      unfold path_leb. rewrite (path_ltb_asym _ _ E). auto.
    + assert (L : path_leb p q = true) by (unfold path_leb; rewrite E; auto).
      constructor; [constructor; auto |]. constructor; auto.
      rewrite Forall_forall in *. intros d I.
      eapply path_leb_trans; eauto.
Qed.

(** X14: [sorted(dirs)] holds the same directories as [dirs], each as
    often, in ascending order of paths (component by component, a path
    before its extensions): the order in which [main] visits them. *)
Theorem X14_sorted_is_ascending_permutation l :
  Permutation (sorted l) l /\
  StronglySorted (fun a b => path_leb a b = true) (sorted l).
Proof.
  split.
  - induction l as [| p l IH]; simpl; auto.
    rewrite insert_perm. auto.
  - induction l as [| p l IH]; simpl; [constructor |].
    apply insert_sorted. auto.
Qed.

Lemma insert_insert p q l :
  insert p (insert q l) = insert q (insert p l).
Proof.
  induction l as [| r l IH]; simpl.
  - destruct (path_ltb q p) eqn:E1, (path_ltb p q) eqn:E2; auto.
    + rewrite (path_ltb_asym _ _ E1) in E2. discriminate.
    + rewrite (path_ltb_total _ _ E1 E2). auto.
  - destruct (path_ltb r q) eqn:Rq, (path_ltb r p) eqn:Rp; simpl;
      rewrite ?Rq, ?Rp.
    + rewrite IH. auto.
    + assert (E : path_ltb p q = true).
      { destruct (path_ltb p r) eqn:Pr.
        - eapply path_ltb_trans; eauto.
        - rewrite (path_ltb_total _ _ Rp Pr) in Rq. auto. }
      rewrite E. reflexivity.
    + assert (E : path_ltb q p = true).
      { destruct (path_ltb q r) eqn:Qr.
        - eapply path_ltb_trans; eauto.
        - rewrite (path_ltb_total _ _ Rq Qr) in Rp. auto. }
      rewrite E. reflexivity.
    + destruct (path_ltb q p) eqn:E1, (path_ltb p q) eqn:E2; simpl;
        rewrite ?Rq, ?Rp; auto.
      * rewrite (path_ltb_asym _ _ E1) in E2. discriminate.
      * rewrite (path_ltb_total _ _ E1 E2). auto.
Qed.

(** X15: the list [main] iterates over does not depend on the order in
    which the directories were enumerated: two lists with the same
    directories are sorted into the same list. *)
Theorem X15_sorted_ignores_enumeration_order l l' :
  Permutation l l' -> sorted l = sorted l'.
Proof.
  induction 1 as [| p l l' P IH | p q l | l l' l'' P1 IH1 P2 IH2]; simpl; auto.
  - congruence.
  - apply insert_insert.
  - congruence.
Qed.

Lemma X15_sorted_ignores_enumeration_order_witness :
  Permutation [["R"; "B"]; ["R"; "A"]] [["R"; "A"]; ["R"; "B"]] /\
  sorted [["R"; "B"]; ["R"; "A"]] = sorted [["R"; "A"]; ["R"; "B"]].
Proof.
  split; [apply perm_swap |].
  apply (X15_sorted_ignores_enumeration_order
           [["R"; "B"]; ["R"; "A"]] [["R"; "A"]; ["R"; "B"]] (perm_swap _ _ _)).
Defined.

(** ** What the log of a run tells *)

Lemma filter_actions_tags ms :
  count_tag DRY ms + count_tag DEL ms + count_tag ERR ms = count_actions ms.
Proof.
  unfold count_tag, count_actions. induction ms as [| m ms IH]; simpl; auto.
  assert (E : is_action m = match tag_of m with
                            | DRY | DEL | ERR => true | _ => false end)
    by reflexivity.
  rewrite E. destruct (tag_of m); simpl; lia.
Qed.

(** X16: over a tree with distinct entry names, the number the dry run
    announces is the number of [DEL] plus [ERR] lines of the live run;
    when the live run prints no [ERR] it reports as deleted exactly the
    number the dry run announced. *)
Theorem X16_live_summary_against_dry_summary r rc q1 q2 t stD stL :
  wf t = true ->
  main (Args r true rc q1) t = Completed stD ->
  main (Args r false rc q2) t = Completed stL ->
  summary (Args r true rc q1) stD
    = SummaryDry (count_tag DEL (out stL) + count_tag ERR (out stL)) /\
  (count_tag ERR (out stL) = 0 ->
   summary (Args r false rc q2) stL = SummaryLive (total_candidates stD)).
Proof.
  intros W MD ML.
  destruct (dry_previews_live r rc q1 q2 t stD stL W MD ML) as [C _].
  destruct (main_completed _ _ _ ML) as [ds G].
  destruct (main_log _ t ds G)
    as (st' & ms & cands & M' & O & T & A & D & Cc & F & S).
  rewrite ML in M'. injection M' as <-.
  assert (Zd : count_tag DRY ms = 0).
  { apply (allowed_count (Args r false rc q2)); auto.
    intros m E. unfold allowed. rewrite E. auto. }
  pose proof (filter_actions_tags ms) as N. rewrite Zd in N. simpl in N.
  assert (L : count_actions ms = total_candidates stL).
  { rewrite Cc. unfold count_actions. symmetry. eapply Forall2_length; eauto. }
  assert (Ed : count_tag DEL (out stL) = count_tag DEL ms).
  { rewrite O, !count_tag_app, count_tag_banner, count_tag_summary
      by discriminate. lia. }
  assert (Ee : count_tag ERR (out stL) = count_tag ERR ms).
  { rewrite O, !count_tag_app, count_tag_banner, count_tag_summary
      by discriminate. lia. }
  unfold summary. simpl. split.
  - f_equal. lia.
  - intros Z. f_equal. lia.
Qed.

Lemma X16_live_summary_against_dry_summary_witness :
  wf tree_course = true /\
  exists stD stL,
    main (Args ["R"] true true false) tree_course = Completed stD /\
    main (Args ["R"] false true true) tree_course = Completed stL /\
    summary (Args ["R"] true true false) stD
      = SummaryDry (count_tag DEL (out stL) + count_tag ERR (out stL)).
Proof.
  split; [reflexivity |]. eexists _, _.
  split; [reflexivity |]. split; [reflexivity |].
  apply (X16_live_summary_against_dry_summary ["R"] true false true
           tree_course _ _ eq_refl eq_refl eq_refl).
Defined.

Lemma trace_split t ms1 : forall ms2 t',
  trace t (ms1 ++ ms2) t' ->
  exists tm, trace t ms1 tm /\ trace tm ms2 t'.
Proof.
  revert t. induction ms1 as [| m ms1 IH]; intros t ms2 t' T; simpl in T.
  - exists t. split; [constructor | auto].
  - inversion T; subst.
    + destruct (IH _ _ _ H4) as (tm & T1 & T2). exists tm. split; auto.
      eapply tr_del; eauto.
    + destruct (IH _ _ _ H4) as (tm & T1 & T2). exists tm. split; auto.
      eapply tr_err; eauto.
    + destruct (IH _ _ _ H4) as (tm & T1 & T2). exists tm. split; auto.
      eapply tr_other; eauto.
Qed.

(** A file the log reports as deleted was there and is gone. *)
Lemma trace_deleted t ms t' f :
  wf t = true -> trace t ms t' -> In (Deleted f) ms ->
  stat t f = Some KFile /\ stat t' f = None.
Proof.
  intros W T I. apply in_split in I as (ms1 & ms2 & ->).
  apply trace_split in T as (tm & T1 & T2).
  pose proof (trace_wf _ _ _ W T1) as Wm.
  inversion T2 as [| t0 f0 t1 ms t2 U T3 | |]; subst.
  - pose proof (unlink_ok_file _ _ _ U) as Sm. split.
    + destruct (trace_stat _ _ _ W T1 f) as [E | (E & N & _)]; congruence.
    + apply (trace_absent _ _ _ _ (wf_unlink _ _ _ Wm U) T3).
      apply (stat_unlink f tm t1 f Wm U). reflexivity.
  - simpl in *. discriminate.
Qed.

(** A file the log reports as not deleted still cannot be unlinked. *)
Lemma trace_could_not t ms t' f e :
  wf t = true -> trace t ms t' -> In (CouldNot f e) ms ->
  exists e', unlink t' f = inr e'.
Proof.
  intros W T I. apply in_split in I as (ms1 & ms2 & ->).
  apply trace_split in T as (tm & T1 & T2).
  pose proof (trace_wf _ _ _ W T1) as Wm.
  inversion T2 as [| | t0 f0 e0 ms t1 U T3 |]; subst.
  - apply (trace_fail_stable _ _ _ _ Wm T3). eauto.
  - simpl in *. discriminate.
Qed.

Lemma in_out_log a (st : state) ms m :
  out st = banner a ++ ms ++ [summary a st] ->
  reports_unlink m = true ->
  In m (out st) <-> In m ms.
Proof.
  intros O R. rewrite O. split.
  - intros I. apply in_app_or in I as [I | I].
    + pose proof (banner_tags a) as B. rewrite Forall_forall in B.
      apply B in I. destruct m; discriminate.
    + apply in_app_or in I as [I | [<- | []]]; auto.
      unfold summary in R. destruct (dry_run a); discriminate.
  - intros I. apply in_or_app. right. apply in_or_app. auto.
Qed.

(** X17: over a tree with distinct entry names the log of a completed
    run is truthful.  The [DEL] lines name exactly the paths the run
    changed: each was a file before the run and is gone after it.  A file
    named by an [ERR] line cannot be unlinked in the tree the run leaves
    either. *)
Theorem X17_log_is_truthful a t st :
  wf t = true ->
  main a t = Completed st ->
  (forall f, In (Deleted f) (out st) <-> stat (fs st) f <> stat t f) /\
  (forall f, In (Deleted f) (out st) ->
             stat t f = Some KFile /\ stat (fs st) f = None) /\
  (forall f e, In (CouldNot f e) (out st) ->
               exists e', unlink (fs st) f = inr e').
Proof.
  intros W M. destruct (main_completed a t st M) as [ds G].
  destruct (main_log a t ds G) as (st' & ms & cands & M' & O & T & _).
  rewrite M in M'. injection M' as <-.
  assert (Del : forall f, In (Deleted f) (out st) ->
                          stat t f = Some KFile /\ stat (fs st) f = None).
  { intros f I. apply (in_out_log a st ms (Deleted f) O eq_refl) in I.
    apply (trace_deleted _ _ _ _ W T I). }
  split; [| split; [exact Del |]].
  - intros f. split.
    + intros I. destruct (Del f I) as [E1 E2]. congruence.
    + intros Ne. apply (in_out_log a st ms (Deleted f) O eq_refl).
      destruct (trace_stat _ _ _ W T f) as [E | (_ & _ & I)]; [congruence | auto].
  - intros f e I. apply (in_out_log a st ms (CouldNot f e) O eq_refl) in I.
    apply (trace_could_not _ _ _ _ _ W T I).
Qed.

Lemma X17_log_is_truthful_witness :
  wf tree_course = true /\
  exists st,
    main (Args ["R"] false false true) tree_course = Completed st /\
    stat tree_course ["R"; "A"; "questions"; "q1.tex"] = Some KFile /\
    stat (fs st) ["R"; "A"; "questions"; "q1.tex"] = None.
Proof.
  split; [reflexivity |]. eexists. split; [reflexivity |].
  apply (proj1 (proj2 (X17_log_is_truthful (Args ["R"] false false true)
                         tree_course _ eq_refl eq_refl))).
  simpl. auto.
Defined.

(** ** The directories gather_target_dirs leaves out *)

(** X18: in both modes no directory whose own base name is [xmScripts],
    [.vscode] or [.git] is in the list of [gather_target_dirs], and in
    non-recursive mode neither such a child of the root nor anything
    below it is in the list. *)
Theorem X18_ignored_names_never_listed t r rc ds :
  gather_target_dirs t r rc = inl ds ->
  (forall d, In d ds ->
     name d <> "xmScripts" /\ name d <> ".vscode" /\ name d <> ".git") /\
  (rc = false ->
   forall x below, ignored x = true -> ~ In (r ++ x :: below) ds).
Proof.
  intros G. split.
  - intros d I.
    assert (N : ignored (name d) = false).
    { destruct rc.
      - apply (in_gather_deep t r ds d G) in I as (p & _ & _ & _ & N). auto.
      - apply (in_gather_flat t r ds d G) in I as (x & -> & _ & N).
        rewrite name_snoc. auto. }
    pose proof (ignored_spec (name d)) as S. rewrite N in S.
    repeat split; intros E; assert (false = true) by (apply S; auto);
      discriminate.
  - intros -> x below Ix I.
    apply (in_gather_flat t r ds _ G) in I as (y & E & _ & N).
    apply app_inv_head in E. injection E as -> _. congruence.
Qed.

Lemma X18_ignored_names_never_listed_witness :
  gather_target_dirs tree_course ["R"] false
    = inl [["R"; "A"]; ["R"; "questions"]] /\
  ~ In (["R"] ++ "xmScripts" :: ["sub"]) [["R"; "A"]; ["R"; "questions"]].
Proof.
  split; [reflexivity |].
  apply (proj2 (X18_ignored_names_never_listed tree_course ["R"] false
                  [["R"; "A"]; ["R"; "questions"]] eq_refl)
           eq_refl "xmScripts" ["sub"] eq_refl).
Defined.

(* ------------------------------------------------------------------ *)
(** * Failures of single deletions *)

(** ** What [unlink] does with a path after another was removed *)

(** Removing [g] does not change how [unlink] ends on another path that
    exists. *)
Lemma verdict_unlink f : forall g t t',
  wf t = true -> unlink t g = inl t' -> f <> g -> stat t f <> None ->
  verdict t' f = verdict t f.
Proof.
  unfold verdict.
  induction f as [| x f IH]; intros g t t' W U Ne S; [reflexivity |].
  pose proof (unlink_inv _ _ _ U) as (w & es & y & g' & c & -> & -> & A & H).
  clear U. pose proof (wf_child _ _ _ _ W A) as Wc.
  simpl in W. apply andb_true_iff in W as [D F].
  unfold stat in S. simpl in S. simpl.
  destruct H as [(-> & -> & -> & ->) | (N & c' & Uc & ->)].
  - destruct (String.eqb_spec x y) as [-> | Nxy].
    + rewrite A in S. destruct f; [congruence | simpl in S; congruence].
    + rewrite assoc_remove_other by auto.
      destruct (assoc x es) as [cx |]; [| reflexivity].
      destruct f as [| z f']; [destruct cx; reflexivity |].
      destruct (unlink cx (z :: f')); reflexivity.
  - destruct (String.eqb_spec x y) as [-> | Nxy].
    + rewrite (assoc_replace_same _ _ _ _ A). rewrite A in *.
      destruct f as [| z f'].
      * destruct (unlink_keeps_dir _ _ _ Uc) as (w1 & es1 & es2 & -> & ->).
        reflexivity.
      * assert (Nf : z :: f' <> g') by congruence.
        pose proof (IH g' c c' Wc Uc Nf S) as E.
        destruct (unlink c (z :: f')), (unlink c' (z :: f'));
          simpl in *; congruence.
    + rewrite assoc_replace_other by auto.
      destruct (assoc x es) as [cx |]; [| reflexivity].
      destruct f as [| z f']; [destruct w, cx; reflexivity |].
      destruct (unlink cx (z :: f')); reflexivity.
Qed.

Lemma verdict_trace t ms t' f :
  wf t = true -> trace t ms t' ->
  ~ In (Deleted f) ms -> stat t f <> None ->
  verdict t' f = verdict t f.
Proof.
  intros W T.
  induction T as [t | t g t' ms t'' U T IH | t g e ms t' U T IH
                 | t m ms t' R T IH]; intros N S; auto.
  - assert (Ne : f <> g) by (intros ->; apply N; left; auto).
    rewrite IH.
    + apply (verdict_unlink f g t t' W U Ne S).
    + eapply wf_unlink; eauto.
    + intros I. apply N. right. auto.
    + rewrite (proj2 (stat_unlink g t t' f W U) Ne). auto.
  - apply IH; auto. intros I. apply N. right. auto.
  - apply IH; auto. intros I. apply N. right. auto.
Qed.

Lemma live_answer_ext t t' f :
  verdict t' f = verdict t f -> live_answer t' f = live_answer t f.
Proof. unfold live_answer. intros ->. reflexivity. Qed.

Lemma candidates_NoDup t qdir :
  wf t = true -> NoDup (find_candidate_deletions t qdir).
Proof.
  intros W. unfold find_candidate_deletions, glob.
  destruct (lookup t qdir) as [[| w es] |] eqn:L; try constructor.
  rewrite classify_entries.
  pose proof (wf_lookup qdir t _ W L) as Wd. simpl in Wd.
  apply andb_true_iff in Wd as [D _]. apply distinct_NoDup in D.
  rewrite <- (map_map fst (fun x => qdir ++ [x])).
  apply children_NoDup. apply NoDup_filter_names. auto.
Qed.

(** ** The messages of a live run, from the tree it starts on *)

(** The inner loop prints, for each of its files in order, the message
    that [unlink] on the tree at the start of the loop calls for:
    whatever happened to the files before it. *)
Lemma delete_loop_answers a cs : forall st,
  wf (fs st) = true -> dry_run a = false -> NoDup cs ->
  (forall f, In f cs -> stat (fs st) f <> None) ->
  out (delete_loop a cs st) = out st ++ map (live_answer (fs st)) cs.
Proof.
  induction cs as [| f cs IH]; intros st W Live N S; simpl.
  - rewrite app_nil_r. reflexivity.
  - inversion N as [| f0 cs0 Nf Ncs]; subst. rewrite Live.
    unfold live_answer at 1, verdict at 1.
    destruct (unlink (fs st) f) as [t' | e] eqn:U.
    + rewrite IH; simpl; auto.
      * rewrite <- app_assoc. simpl. do 2 f_equal.
        apply map_ext_in. intros g I. apply live_answer_ext.
        apply (verdict_unlink g f (fs st) t' W U).
        -- intros ->. auto.
        -- apply S. right. auto.
      * eapply wf_unlink; eauto.
      * intros g I.
        assert (Ne : g <> f) by (intros ->; auto).
        rewrite (proj2 (stat_unlink f (fs st) t' g W U) Ne).
        apply S. right. auto.
    + rewrite IH; simpl; auto.
      * rewrite <- app_assoc. reflexivity.
      * intros g I. apply S. right. auto.
Qed.

(** The outer loop: the [DEL] and [ERR] messages of a live run over
    distinct directories are, in order, the messages that [unlink] on
    the tree at the start calls for, one for every candidate of every
    directory. *)
Lemma dir_loop_answers a ds : forall st,
  wf (fs st) = true -> dry_run a = false -> NoDup ds ->
  exists ms,
    out (dir_loop a ds st) = out st ++ ms /\
    filter is_action ms
    = map (live_answer (fs st)) (all_candidates (fs st) ds).
Proof.
  induction ds as [| d ds IH]; intros st W Live N; simpl.
  - exists []. rewrite app_nil_r. auto.
  - inversion N as [| d0 ds0 Nd Nds]; subst.
    destruct (is_dir (fs st) (d ++ ["questions"])) eqn:Q; simpl.
    + set (cs := find_candidate_deletions (fs st) (d ++ ["questions"])).
      set (st0 := State (fs st) (out st) (total_deleted st)
                    (total_candidates st + List.length cs)).
      destruct (match cs with [] => true | _ :: _ => false end && negb (quiet a))
        eqn:Empty.
      * destruct (IH (print (SkipEmpty (d ++ ["questions"])) st0) W Live Nds)
          as (ms & O & F).
        apply andb_true_iff in Empty as [E _].
        assert (cs = []) as -> by (destruct cs; [auto | discriminate]).
        exists (SkipEmpty (d ++ ["questions"]) :: ms).
        rewrite O. simpl. rewrite <- app_assoc.
        split; [reflexivity | exact F].
      * destruct (delete_loop_log a cs st0) as (ms1 & O1 & T1 & A1 & D1 & C1).
        simpl in T1.
        assert (In1 : forall f, In f cs -> stat (fs st) f <> None).
        { intros f I. apply in_candidates_stat in I as (x & _ & _ & _ & S).
          exact S. }
        pose proof (delete_loop_answers a cs st0 W Live
                      (candidates_NoDup _ _ W) In1) as O2.
        rewrite O1 in O2. apply app_inv_head in O2. simpl in O2.
        assert (W1 : wf (fs (delete_loop a cs st0)) = true)
          by (eapply trace_wf; eauto).
        assert (Other : forall f g, In f (all_candidates (fs st) ds) ->
                                    In (Deleted g) ms1 -> f <> g).
        { intros f g I Ig ->.
          apply (answers_deleted a cs ms1 g A1) in Ig.
          apply in_candidates_stat in Ig as (x & E & _).
          apply in_flat_map in I as (d' & Id & I).
          apply in_candidates_stat in I as (x' & E' & _).
          rewrite E in E'.
          apply app_inj_tail in E' as [E' _].
          apply app_inj_tail in E' as [-> _]. auto. }
        assert (Same : all_candidates (fs (delete_loop a cs st0)) ds
                       = all_candidates (fs st) ds).
        { apply all_candidates_ext. intros d' I. apply candidates_names.
          apply (trace_names _ _ _ _ W T1). intros f x Id E.
          apply (answers_deleted a cs ms1 f A1) in Id.
          apply in_candidates_stat in Id as (x' & -> & _).
          apply app_inj_tail in E as [E _]. apply app_inj_tail in E as [-> _].
          auto. }
        destruct (IH (delete_loop a cs st0) W1 Live Nds) as (ms & O & F).
        rewrite Same in F.
        exists (ms1 ++ ms). rewrite O, O1. simpl.
        rewrite app_assoc, filter_app, (answers_actions _ _ _ A1).
        split; [reflexivity |].
        unfold all_candidates at 1. simpl. fold (all_candidates (fs st) ds).
        fold cs. rewrite map_app, <- O2, F. f_equal.
        apply map_ext_in. intros f I. apply live_answer_ext.
        apply (verdict_trace _ _ _ f W T1).
        -- intros Ig. apply (Other f f I Ig). reflexivity.
        -- apply in_flat_map in I as (d' & _ & I).
           apply in_candidates_stat in I as (x & _ & _ & _ & S). exact S.
    + unfold all_candidates. simpl. rewrite (candidates_not_dir _ _ Q). simpl.
      apply IH; auto.
Qed.

(** ** C5 *)

(** C5: a live run, on a tree whose directories have distinct entry
    names, that gets its directories completes and ends with its
    summary, however many deletions fail.  Between the banner and the
    summary its log [ms] is a [trace]: every [ERR] message names a file
    whose [unlink] raised and the error raised, and the tree changes
    only where a [DEL] message says so.  The [DEL] and [ERR] messages of
    the log are, in order, one for every candidate of every listed
    directory in sorted order: [DEL] for a candidate that [unlink]
    removes, [ERR] with its path and the error for one on which [unlink]
    raises.  So a failure stops neither the files nor the directories
    after it.  The counter of deleted files counts the [DEL] messages
    and no [ERR] message, and every candidate is counted once. *)
Theorem C5_failure_is_reported_and_skipped a t ds :
  wf t = true ->
  dry_run a = false ->
  gather_target_dirs t (root a) (recursive a) = inl ds ->
  exists st ms,
    main a t = Completed st /\
    out st = banner a ++ ms ++ [SummaryLive (total_deleted st)] /\
    trace t ms (fs st) /\
    filter is_action ms
    = map (live_answer t) (all_candidates t (sorted ds)) /\
    (forall d f,
       In d ds -> In f (find_candidate_deletions t (d ++ ["questions"])) ->
       In (live_answer t f) ms) /\
    total_deleted st = count_tag DEL ms /\
    total_candidates st = List.length (all_candidates t (sorted ds)) /\
    count_tag DEL ms + count_tag ERR ms = total_candidates st.
Proof.
  intros W Live G.
  pose proof (NoDup_sorted ds (gather_NoDup t _ _ ds W G)) as N.
  set (st0 := State t (banner a) 0 0).
  destruct (dir_loop_log a (sorted ds) st0)
    as (ms & cands & O & T & A & D & _).
  destruct (dir_loop_answers a (sorted ds) st0 W Live N) as (ms' & O' & F).
  destruct (dir_loop_live_cands a (sorted ds) st0 W Live N) as (ms2 & _ & _ & C).
  rewrite O in O'. apply app_inv_head in O'. subst ms'. simpl in *.
  exists (print (summary a (dir_loop a (sorted ds) st0))
            (dir_loop a (sorted ds) st0)), ms.
  assert (Zd : count_tag DRY ms = 0).
  { apply (allowed_count a); auto. intros m E. unfold allowed.
    rewrite E, Live. auto. }
  pose proof (actions_allowed a ms A) as L. rewrite Zd in L. simpl in L.
  unfold count_actions in L. rewrite F, length_map in L.
  split; [unfold main; rewrite G; reflexivity |].
  split; [simpl; unfold summary; rewrite Live, O, app_assoc; reflexivity |].
  split; [exact T |]. split; [exact F |].
  split.
  { intros d f Id If.
    assert (I : In (live_answer t f) (filter is_action ms)).
    { rewrite F. apply in_map. apply in_flat_map. exists d.
      split; [apply in_sorted; auto | exact If]. }
    apply filter_In in I as [I _]. exact I. }
  split; [exact D |]. split; [exact C |]. simpl. rewrite C. lia.
Qed.

Lemma C5_failure_is_reported_and_skipped_witness :
  wf tree_blocked = true /\
  dry_run (Args ["R"] false false true) = false /\
  gather_target_dirs tree_blocked ["R"] false
  = inl [["R"; "A"]; ["R"; "B"]; ["R"; "C"]] /\
  exists st ms,
    main (Args ["R"] false false true) tree_blocked = Completed st /\
    out st = banner (Args ["R"] false false true) ++ ms
             ++ [SummaryLive (total_deleted st)] /\
    trace tree_blocked ms (fs st) /\
    filter is_action ms
    = map (live_answer tree_blocked)
        (all_candidates tree_blocked
           (sorted [["R"; "A"]; ["R"; "B"]; ["R"; "C"]])) /\
    (forall d f,
       In d [["R"; "A"]; ["R"; "B"]; ["R"; "C"]] ->
       In f (find_candidate_deletions tree_blocked (d ++ ["questions"])) ->
       In (live_answer tree_blocked f) ms) /\
    total_deleted st = count_tag DEL ms /\
    total_candidates st
    = List.length
        (all_candidates tree_blocked
           (sorted [["R"; "A"]; ["R"; "B"]; ["R"; "C"]])) /\
    count_tag DEL ms + count_tag ERR ms = total_candidates st.
Proof.
  split; [reflexivity |]. split; [reflexivity |]. split; [reflexivity |].
  apply (C5_failure_is_reported_and_skipped (Args ["R"] false false true)
           tree_blocked [["R"; "A"]; ["R"; "B"]; ["R"; "C"]]
           eq_refl eq_refl eq_refl).
Defined.

(** The run of the witness: the two failures are reported, and the files
    after them are deleted. *)
Example blocked_run :
  final (main (Args ["R"] false false true) tree_blocked)
  = State
      (Dir true [("R", Dir true
         [("A", Dir true [("questions", Dir true [("q1.tex", Dir true [])])]);
          ("B", Dir true [("questions", Dir false [("q7.tex", File)])]);
          ("C", Dir true [("questions", Dir true [])])])])
      [CouldNot ["R"; "A"; "questions"; "q1.tex"] EISDIR;
       Deleted ["R"; "A"; "questions"; "q2.tex"];
       CouldNot ["R"; "B"; "questions"; "q7.tex"] EACCES;
       Deleted ["R"; "C"; "questions"; "q3.tex"];
       SummaryLive 2]
      2 4.
Proof. reflexivity. Qed.
